(** * llm_hub: the guardrail pipeline of [orchestrator_v5.py]

    A shallow embedding of the text guardrails (post splitting, the critic,
    the deterministic reviser), of the retrying completion client and of the
    queue processor, with the properties the specification states of them.

    Python strings are sequences of Unicode code points: [len], slicing and
    [rfind] count code points, so a string is a [list N] here.  The ellipsis
    and the em dash of the source are one code point each. *)

From Stdlib Require Import ZArith NArith QArith Lia Bool Ascii String DecimalString.
From stdpp Require Import base list gmap sorting.

Local Open Scope nat_scope.

(** ** Strings *)

Module Py.

Abbreviation char := N (only parsing).
Abbreviation str := (list N) (only parsing).

(** An ASCII literal of the source as a code point sequence. *)
Definition lit (s : string) : str :=
  map N_of_ascii (list_ascii_of_string s).

Definition SPACE : char := 32%N.
Definition NEWLINE : char := 10%N.
Definition CR : char := 13%N.
Definition ELLIPSIS : char := 8230%N.   (* U+2026 *)
Definition EM_DASH : char := 8212%N.    (* U+2014 *)

(** [str.isspace] on one code point, which is also what [str.strip] strips
    and what the pattern class \s matches on [str] patterns. *)
Definition isspace (c : char) : bool :=
  ((9 <=? c) && (c <=? 13) || (28 <=? c) && (c <=? 32)
   || (c =? 133) || (c =? 160) || (c =? 5760)
   || (8192 <=? c) && (c <=? 8202)
   || (c =? 8232) || (c =? 8233) || (c =? 8239) || (c =? 8287)
   || (c =? 12288))%N.

(** The line boundaries of [str.splitlines]. *)
Definition is_linebreak (c : char) : bool :=
  ((10 <=? c) && (c <=? 13) || (28 <=? c) && (c <=? 30)
   || (c =? 133) || (c =? 8232) || (c =? 8233))%N.

Fixpoint lstrip (s : str) : str :=
  match s with
  | c :: s' => if isspace c then lstrip s' else s
  | [] => []
  end.

Definition rstrip (s : str) : str := reverse (lstrip (reverse s)).

Definition strip (s : str) : str := rstrip (lstrip s).

(** [s[:k]] for an integer [k]: a negative [k] counts from the end. *)
Definition slice_to (s : str) (k : Z) : str :=
  if (k <? 0)%Z
  then take (Z.to_nat (Z.max 0 (Z.of_nat (length s) + k))) s
  else take (Z.to_nat k) s.

(** Index of the last occurrence of [c] in [s], scanning from index [i]. *)
Fixpoint last_index_from (c : char) (i : nat) (s : str) (best : option nat)
  : option nat :=
  match s with
  | [] => best
  | x :: s' =>
      last_index_from c (S i) s' (if (x =? c)%N then Some i else best)
  end.

(** [s.rfind(c, 0, e)] for a single character [c]: the highest index [i]
    with [i < e] and [s[i] = c], or [-1].  A negative [e] counts from the
    end, as in slicing. *)
Definition rfind (c : char) (s : str) (e : Z) : Z :=
  match last_index_from c 0 (slice_to s e) None with
  | Some i => Z.of_nat i
  | None => (-1)%Z
  end.

(** [sep.join(l)]. *)
Fixpoint join (sep : str) (l : list str) : str :=
  match l with
  | [] => []
  | [x] => x
  | x :: l' => x ++ sep ++ join sep l'
  end.

(** [str.splitlines()]: a carriage return followed by a line feed is one
    boundary, and a final boundary opens no further line. *)
Fixpoint splitlines_from (cur : str) (s : str) : list str :=
  match s with
  | [] => match cur with [] => [] | _ => [reverse cur] end
  | c :: s' =>
      if is_linebreak c then
        reverse cur ::
          (if (c =? CR)%N
           then match s' with
                | d :: s'' =>
                    if (d =? NEWLINE)%N then splitlines_from [] s''
                    else splitlines_from [] s'
                | [] => splitlines_from [] s'
                end
           else splitlines_from [] s')
      else splitlines_from (c :: cur) s'
  end.

Definition splitlines (s : str) : list str := splitlines_from [] s.

(** [needle in s] for strings. *)
Fixpoint starts_with (needle s : str) : bool :=
  match needle, s with
  | [], _ => true
  | _ :: _, [] => false
  | a :: n', b :: s' => (a =? b)%N && starts_with n' s'
  end.

Fixpoint contains (needle s : str) : bool :=
  starts_with needle s ||
  match s with
  | [] => false
  | _ :: s' => contains needle s'
  end.

End Py.

Import Py.

(** ** Boundary-aware truncation *)

(** [trim_to_limit(text, limit)]: the source's default [limit] is 280. *)
Definition trim_to_limit (text : str) (limit : Z) : str :=
  if (Z.of_nat (length text) <=? limit)%Z then text
  else
    let cut := rfind SPACE text (Z.max 0 (limit - 1)) in
    if negb (cut =? -1)%Z
    then rstrip (slice_to text cut ++ [ELLIPSIS])
    else rstrip (slice_to text (limit - 1) ++ [ELLIPSIS]).

(** ** The Unicode character database

    [str.lower], [str.isdigit] and the pattern classes \w and \d consult
    the interpreter's Unicode tables.  Their ASCII rows are written out
    below; the rows beyond ASCII are taken as given. *)

Class UnicodeData := {
  na_isalnum : char -> bool;        (* [str.isalnum], code points >= 128 *)
  na_isdecimal : char -> bool;      (* category Nd, code points >= 128 *)
  na_isdigit : char -> bool;        (* [str.isdigit], code points >= 128 *)
  na_lower_full : char -> str;      (* full lowercase mapping, >= 128 *)
  na_lower_simple : char -> char;   (* simple lowercase mapping, >= 128 *)
  final_sigma : str -> nat -> bool  (* context rule for U+03A3 *)
}.

Section Unicode.
Context `{UnicodeData}.

Definition is_ascii (c : char) : bool := (c <? 128)%N.

Definition ascii_isupper (c : char) : bool := ((65 <=? c) && (c <=? 90))%N.
Definition ascii_islower (c : char) : bool := ((97 <=? c) && (c <=? 122))%N.
Definition ascii_isdigit (c : char) : bool := ((48 <=? c) && (c <=? 57))%N.

Definition ascii_lower (c : char) : char :=
  if ascii_isupper c then (c + 32)%N else c.

Definition isalnum (c : char) : bool :=
  if is_ascii c
  then ascii_isupper c || ascii_islower c || ascii_isdigit c
  else na_isalnum c.

(** The class \w of a [str] pattern. *)
Definition is_word (c : char) : bool := isalnum c || (c =? 95)%N.

(** The class \d of a [str] pattern. *)
Definition isdecimal (c : char) : bool :=
  if is_ascii c then ascii_isdigit c else na_isdecimal c.

Definition isdigit_char (c : char) : bool :=
  if is_ascii c then ascii_isdigit c else na_isdigit c.

(** [str.isdigit]: at least one character, and digits only. *)
Definition isdigit (s : str) : bool :=
  negb (bool_decide (s = [])) && forallb isdigit_char s.

Definition lower_full (c : char) : str :=
  if is_ascii c then [ascii_lower c] else na_lower_full c.

Definition lower_simple (c : char) : char :=
  if is_ascii c then ascii_lower c else na_lower_simple c.

(** [str.lower]: character by character, the capital sigma alone
    depending on its context. *)
Definition lower_at (s : str) (i : nat) (c : char) : str :=
  if (c =? 931)%N
  then [if final_sigma s i then 962%N else 963%N]
  else lower_full c.

Definition lower (s : str) : str := concat (imap (lower_at s) s).

End Unicode.

(** ** Patterns

    The fragment of [re] the source uses.  Repetition is only ever applied
    to a character class.  [ends s r i] lists the positions at which a
    match of [r] that starts at [i] can end, in the order in which the
    backtracking matcher tries them: its head is the match [re] reports. *)

Module Re.

Inductive re :=
| Eps
| Cls (f : char -> bool)
| Seq (a b : re)
| Alt (a b : re)
| Opt (a : re)                 (* r? *)
| Star (f : char -> bool)      (* [f]*, greedy *)
| Plus (f : char -> bool)      (* [f]+, greedy *)
| StarLazy (f : char -> bool)  (* [f]*?, lazy *)
| Bol                          (* ^ under MULTILINE *)
| Eol                          (* $ under MULTILINE *)
| WordB.                       (* \b *)

Fixpoint seqs (l : list re) : re :=
  match l with
  | [] => Eps
  | [r] => r
  | r :: l' => Seq r (seqs l')
  end.

Definition chr (c : char) : re := Cls (N.eqb c).

(** A literal word, case-sensitive. *)
Definition word (s : string) : re := seqs (map chr (lit s)).

(** Length of the longest prefix of [s] inside the class [f]. *)
Fixpoint run (f : char -> bool) (s : str) : nat :=
  match s with
  | c :: s' => if f c then S (run f s') else 0
  | [] => 0
  end.

(** A pattern every match of which takes at least one character. *)
Fixpoint consumes (r : re) : bool :=
  match r with
  | Cls _ | Plus _ => true
  | Seq a b => consumes a || consumes b
  | Alt a b => consumes a && consumes b
  | _ => false
  end.

Section Matching.
Context `{UnicodeData}.
Variable s : str.

Definition word_at (i : nat) : bool :=
  match s !! i with Some c => is_word c | None => false end.

Definition at_boundary (i : nat) : bool :=
  let before := match i with 0 => false | S j => word_at j end in
  negb (eqb before (word_at i)).

Definition at_bol (i : nat) : bool :=
  match i with
  | 0 => true
  | S j => match s !! j with Some c => (c =? NEWLINE)%N | None => false end
  end.

Definition at_eol (i : nat) : bool :=
  match s !! i with Some c => (c =? NEWLINE)%N | None => true end.

Fixpoint ends (r : re) (i : nat) : list nat :=
  match r with
  | Eps => [i]
  | Cls f =>
      match s !! i with
      | Some c => if f c then [S i] else []
      | None => []
      end
  | Seq a b => flat_map (ends b) (ends a i)
  | Alt a b => ends a i ++ ends b i
  | Opt a => ends a i ++ [i]
  | Star f => map (Nat.add i) (reverse (seq 0 (S (run f (drop i s)))))
  | Plus f => map (Nat.add i) (reverse (seq 1 (run f (drop i s))))
  | StarLazy f => map (Nat.add i) (seq 0 (S (run f (drop i s))))
  | Bol => if at_bol i then [i] else []
  | Eol => if at_eol i then [i] else []
  | WordB => if at_boundary i then [i] else []
  end.

(** [re.search(r, s)] as a truth value. *)
Definition search (r : re) : bool :=
  existsb (fun i => negb (bool_decide (ends r i = []))) (seq 0 (S (length s))).

(** The scan shared by [re.split] and [re.sub]: positions are tried from
    left to right, a match at [i] closes the piece that began at [start]
    and the scan resumes where the match ended.  Positions inside the
    last match are passed over ([i < start]).  The patterns scanned this
    way in the source never match the empty string (see
    [split_pattern_consumes]); an empty match is passed over too. *)
Fixpoint pieces_from (r : re) (positions : list nat) (start : nat)
  : list str :=
  match positions with
  | [] => [drop start s]
  | i :: rest =>
      if start <=? i then
        match ends r i with
        | e :: _ =>
            if i <? e
            then take (i - start) (drop start s) :: pieces_from r rest e
            else pieces_from r rest start
        | [] => pieces_from r rest start
        end
      else pieces_from r rest start
  end.

(** [re.split(r, s)] for a pattern without capturing groups. *)
Definition split (r : re) : list str :=
  pieces_from r (seq 0 (S (length s))) 0.

(** [re.sub] of [r] in [s] by the empty string. *)
Definition delete_all (r : re) : str := concat (split r).

End Matching.

End Re.

Import Re.

(** ** The guardrails *)

Section Guardrails.
Context `{UnicodeData}.

(** [URL_RE = https?://\S+] *)
Definition URL_RE : re :=
  seqs [word "http"; Opt (chr 115%N); word "://"; Plus (fun c => negb (isspace c))].

Definition dot (c : char) : bool := negb (c =? NEWLINE)%N.

(** [\bjoin\b.*\bmail(ing)?\s*list\b] *)
Definition JOIN_LIST_RE : re :=
  seqs [WordB; word "join"; WordB; Star dot; WordB; word "mail";
        Opt (word "ing"); Star isspace; word "list"; WordB].

(** [\b(sign\s*up|subscribe)\b] *)
Definition SIGNUP_RE : re :=
  seqs [WordB;
        Alt (seqs [word "sign"; Star isspace; word "up"]) (word "subscribe");
        WordB].

(** The numbering pattern of [split_posts], under MULTILINE: either
    [^\s*\d+[\).\-]\s*] or [\n\s*\d+[\).\-]\s*]. *)
Definition is_separator (c : char) : bool :=
  ((c =? 41) || (c =? 46) || (c =? 45))%N.

Definition numbered_item : re :=
  seqs [Star isspace; Plus isdecimal; Cls is_separator; Star isspace].

Definition NUMBERING_RE : re :=
  Alt (Seq Bol numbered_item) (Seq (chr NEWLINE) numbered_item).

Definition nonempty (s : str) : bool := negb (bool_decide (s = [])).

(** The comprehension [[ln.strip() for ln in text.splitlines() if ln.strip()]]. *)
Definition stripped_lines (text : str) : list str :=
  map strip (filter (fun ln => nonempty (strip ln) = true) (splitlines text)).

Definition split_posts (text : str) : list str :=
  let lines := stripped_lines text in
  if 3 <=? length lines then lines
  else
    let parts := split text NUMBERING_RE in
    let posts :=
      map strip
        (filter (fun s => (nonempty s && negb (isdigit (strip s))) = true)
                parts) in
    filter (fun p => nonempty p = true) posts.

Definition FALLBACK_POST : str :=
  lit "Join our mailing list for updates: https://trieboldinstitute.org/join".

(** The loop [while len(posts) < 3: posts.append(...)]; [rounds] bounds
    the number of iterations, and three of them always reach the exit
    (see [append_until_three_exits]). *)
Fixpoint append_until_three (rounds : nat) (posts : list str) : list str :=
  match rounds with
  | 0 => posts
  | S rounds' =>
      if length posts <? 3
      then append_until_three rounds' (posts ++ [FALLBACK_POST])
      else posts
  end.

Definition enforce_three (posts : list str) : list str :=
  let posts := filter (fun p => nonempty p = true) posts in
  let posts := if 3 <? length posts then take 3 posts else posts in
  append_until_three 3 posts.

Definition has_cta (p : str) : bool :=
  let s := lower p in
  if contains (lit "trieboldinstitute.org/join") s then true
  else if search s JOIN_LIST_RE then true
  else if search s SIGNUP_RE then true
  else false.

Definition SHORT_SUFFIX : str :=
  [SPACE; EM_DASH; SPACE] ++ lit "Join our mailing list.".

Definition LONG_SUFFIX : str :=
  [SPACE; EM_DASH; SPACE]
    ++ lit "Join our mailing list: https://trieboldinstitute.org/join".

(** One iteration of the loop of [ensure_cta]: what it appends to [out]
    for the post [p]. *)
Definition ensure_cta_post (p : str) : str :=
  if has_cta p then
    if length p <=? 280 then p else trim_to_limit p 280
  else
    let suffix := if search p URL_RE then SHORT_SUFFIX else LONG_SUFFIX in
    let p :=
      if 280 <? length p + length suffix
      then trim_to_limit p (280 - Z.of_nat (length suffix))
      else p in
    if length p + length suffix <=? 280
    then p ++ suffix
    else trim_to_limit (p ++ suffix) 280.

Definition ensure_cta (posts : list str) : list str :=
  map ensure_cta_post posts.

(** The three feedback messages of the critic. *)
Definition decimal (n : nat) : str :=
  lit (DecimalString.NilEmpty.string_of_uint (Nat.to_uint n)).

Definition MSG_COUNT (got : nat) : str :=
  lit "Expected 3 posts; got " ++ decimal got ++ lit ".".
Definition MSG_LENGTH : str := lit "One or more posts exceed 280 chars.".
Definition MSG_CTA : str :=
  lit "Each post must include a clear CTA (Join/Sign up/Subscribe or /join link).".

Definition role_critic (deliverable : str) : bool * list str * list str :=
  let posts := split_posts deliverable in
  let posts := enforce_three posts in
  let ok_len := forallb (fun p => length p <=? 280) posts in
  let ok_cta := forallb has_cta posts in
  let ok_cnt := length posts =? 3 in
  let ok := ok_len && ok_cta && ok_cnt in
  let feedback :=
    (if negb ok_cnt then [MSG_COUNT (length posts)] else [])
      ++ (if negb ok_len then [MSG_LENGTH] else [])
      ++ (if negb ok_cta then [MSG_CTA] else []) in
  (ok, feedback, posts).

(** The list [posts] of [role_reviser] just before it is joined. *)
Definition revised_posts (posts : list str) : list str :=
  let posts := map (fun p => trim_to_limit p 280) posts in
  let posts := ensure_cta posts in
  map (fun p => trim_to_limit p 280) posts.

Definition role_reviser (posts : list str) (feedback : list str) : str :=
  join [NEWLINE] (revised_posts posts).

(** The critic and reviser steps of [run_pipeline]: the deliverable
    [work] after them. *)
Definition guarded (work : str) : str :=
  let '(ok, feedback, posts) := role_critic work in
  if negb ok then role_reviser posts feedback else work.

(** [THINK_RE = <\s*think\s*>.*?<\s*/\s*think\s*>] under IGNORECASE and
    DOTALL, [META_RE = ^\s*\[(?:PLANNER|WORKER|CRITIC|REVISER|LOG)\].*$]
    under IGNORECASE and MULTILINE.  A cased literal of an IGNORECASE
    pattern matches a character whose simple lowercase mapping is the
    literal's, or one of the literal's listed equivalents (dotless i for
    i, long s for s). *)
Definition case_fixes (lo : char) : list char :=
  if (lo =? 105)%N then [305%N]
  else if (lo =? 115)%N then [383%N]
  else [].

Definition ci (c : char) : re :=
  let lo := ascii_lower c in
  if ascii_isupper c || ascii_islower c
  then Cls (fun x => bool_decide (lower_simple x ∈ lo :: case_fixes lo))
  else chr c.

Definition ci_word (s : string) : re := seqs (map ci (lit s)).

Definition THINK_RE : re :=
  seqs [chr 60%N; Star isspace; ci_word "think"; Star isspace; chr 62%N;
        StarLazy (fun _ => true);
        chr 60%N; Star isspace; chr 47%N; Star isspace; ci_word "think";
        Star isspace; chr 62%N].

Definition META_RE : re :=
  seqs [Bol; Star isspace; chr 91%N;
        Alt (ci_word "PLANNER")
          (Alt (ci_word "WORKER")
             (Alt (ci_word "CRITIC")
                (Alt (ci_word "REVISER") (ci_word "LOG"))));
        chr 93%N; Star dot; Eol].

Definition sanitize (text : str) : str :=
  let text := delete_all text THINK_RE in
  let text := delete_all text META_RE in
  strip text.

(** The effect of [role_reviser] on one post. *)
Definition revised_post (p : str) : str :=
  trim_to_limit (ensure_cta_post (trim_to_limit p 280)) 280.

(** A post that meets both rules of the critic. *)
Definition valid_post (p : str) : Prop :=
  length p <= 280 /\ has_cta p = true.

(** The line-based candidates in the specification's words: split on line
    breaks, trim each line, discard the empty ones. *)
Definition line_candidates (text : str) : list str :=
  filter (fun ln => nonempty ln = true) (map strip (splitlines text)).

End Guardrails.

(** A text without line boundaries. *)
Definition one_line (s : str) : Prop :=
  Forall (fun c => is_linebreak c = false) s.

(** [s.split(c)] for a single character [c]: the lines of a text joined
    with line feeds. *)
Fixpoint split_on_from (c : char) (cur : str) (s : str) : list str :=
  match s with
  | [] => [reverse cur]
  | x :: s' =>
      if (x =? c)%N then reverse cur :: split_on_from c [] s'
      else split_on_from c (x :: cur) s'
  end.

Definition split_on (c : char) (s : str) : list str := split_on_from c [] s.

(** The truncation rule in the specification's words: cut at the last
    whitespace character at or before position [limit - 1], append the
    ellipsis and right-trim; without one, cut hard at [limit - 1]. *)
Fixpoint last_where (f : char -> bool) (i : nat) (s : str) (best : option nat)
  : option nat :=
  match s with
  | [] => best
  | x :: s' => last_where f (S i) s' (if f x then Some i else best)
  end.

Definition trim_as_specified (text : str) (limit : Z) : str :=
  if (Z.of_nat (length text) <=? limit)%Z then text
  else
    match last_where isspace 0 (take (Z.to_nat limit) text) None with
    | Some cut => rstrip (take cut text ++ [ELLIPSIS])
    | None => take (Z.to_nat (limit - 1)) text ++ [ELLIPSIS]
    end.

(** A character database that knows ASCII only: every other code point is
    a caseless symbol.  It serves to run the definitions on ASCII texts. *)
Definition ascii_only : UnicodeData :=
  {| na_isalnum := fun _ => false;
     na_isdecimal := fun _ => false;
     na_isdigit := fun _ => false;
     na_lower_full := fun c => [c];
     na_lower_simple := fun c => c;
     final_sigma := fun _ _ => false |}.

(** Sample deliverables: three posts that pass the critic, and a worker
    output whose first line has 300 characters, no call to action and no
    link. *)
Definition good_posts : list str :=
  [lit "Read our story. Subscribe today";
   lit "Meet the team - sign up now";
   lit "Join our mailing list: https://trieboldinstitute.org/join"].

(** Three posts the first of which holds a line feed. *)
Definition broken_posts : list str :=
  [lit "a" ++ [NEWLINE] ++ lit "b"; lit "c"; lit "d"].

(** A post with a call to action, a tab after it and no space, longer
    than 280 characters. *)
Definition tabbed_post : str := lit "subscribe" ++ [9%N] ++ replicate 300 98%N.

Definition long_line : str := replicate 300 97%N.

Definition long_work : str := join [NEWLINE] [long_line; lit "x"; lit "y"].

(** ** The completion client *)

Module Client.

(** [range(a, b)] *)
Definition range (a b : Z) : list Z :=
  map (fun k => (a + Z.of_nat k)%Z) (seq 0 (Z.to_nat (b - a))).

(** What the endpoint does with one request: [requests.post] raises, or a
    response comes back whose body [r.json()] decodes ([json = None] when
    it raises). *)
Inductive reply (data : Type) :=
| Unreachable (e : str)
| Response (status : Z) (text : str) (json : option data).

Arguments Unreachable {data} e.
Arguments Response {data} status text json.

(** A Python [float]: a finite one is taken as the rational it denotes. *)
Inductive float :=
| Finite (q : Q)
| Infinity
| NegInfinity
| NaN.

(** The endpoint and the configuration.  [payload] is the request body
    ([model], [messages], [temperature], [max_tokens]) and [data] a decoded
    response body.  [first_choice d] is
    [d["choices"][0]["message"]["content"]] when the lookups succeed and
    the content is text, [None] when the lookup or [sanitize] on its result
    raises.  The network answers the [n]-th request of a run with [net n].
    [TRIES] is an [int] and [BACKOFF] a [float].  [times x n] is the
    product [x * n] as Python computes it: [n] is converted to a float,
    which raises [OverflowError] for an [n] beyond the range of floats
    ([None]), and the product is rounded to a float; multiplying by 1
    changes no float.  [time.sleep] accepts a wait from 0 to [SLEEP_MAX]
    seconds, a bound that depends on the platform's clock (near 9.2e9 in
    CPython), and raises on any other: a negative one, one beyond the bound
    or infinite, and NaN. *)
Class Endpoint := {
  payload : Type;
  data : Type;
  first_choice : data -> option str;
  net : nat -> payload -> reply data;
  TRIES : Z;
  BACKOFF : float;
  times : float -> Z -> option float;
  times_one : forall x, times x 1 = Some x;
  SLEEP_MAX : Q
}.

Section Chat.
Context `{UnicodeData} `{Endpoint}.

Inductive error :=
| Transport (e : str)
| Http (status : Z) (text : str)    (* RuntimeError("HTTP {status}: {text[:600]}") *)
| NotJson
| NoContent
| IntTooLarge (attempt : Z)         (* OverflowError of [BACKOFF * attempt] *)
| BadSleep (d : float)              (* ValueError or OverflowError of [time.sleep] *)
| ApiCallFailed (tries : Z) (cause : error).
                                    (* RuntimeError("API call failed after ...") from e *)

Inductive event :=
| Post (p : payload)
| Sleep (d : float).

Record world := { sent : nat; log : list event }.

Inductive outcome :=
| Returned (text : str) (raw : data)
| ReturnedNone
| Raised (e : error).

(** The body of the [try] block on a given reply. *)
Definition decode (r : reply data) : error + str * data :=
  match r with
  | Unreachable e => inl (Transport e)
  | Response status text json =>
      if negb (status =? 200)%Z then inl (Http status (take 600 text))
      else match json with
           | None => inl NotJson
           | Some d =>
               match first_choice d with
               | None => inl NoContent
               | Some raw => inr (sanitize raw, d)
               end
           end
  end.

Definition post (p : payload) (w : world) : reply data * world :=
  (net (sent w) p, {| sent := S (sent w); log := log w ++ [Post p] |}).

(** The waits [time.sleep] accepts. *)
Definition accepted (d : float) : bool :=
  match d with
  | Finite q => Qle_bool 0 q && Qle_bool q SLEEP_MAX
  | _ => false
  end.

Definition negative (d : float) : bool :=
  match d with
  | Finite q => negb (Qle_bool 0 q)
  | NegInfinity => true
  | _ => false
  end.

Definition sleep (d : float) (w : world) : option world :=
  if accepted d
  then Some {| sent := sent w; log := log w ++ [Sleep d] |}
  else None.

(** The loop [for attempt in range(1, TRIES + 1)]. *)
Fixpoint chat_loop (p : payload) (attempts : list Z) (w : world)
  : outcome * world :=
  match attempts with
  | [] => (ReturnedNone, w)
  | attempt :: rest =>
      let '(r, w1) := post p w in
      match decode r with
      | inr (text, d) => (Returned text d, w1)
      | inl e =>
          if (attempt <? TRIES)%Z then
            match times BACKOFF attempt with
            | None => (Raised (IntTooLarge attempt), w1)
            | Some d =>
                match sleep d w1 with
                | Some w2 => chat_loop p rest w2
                | None => (Raised (BadSleep d), w1)
                end
            end
          else (Raised (ApiCallFailed TRIES e), w1)
      end
  end.

Definition chat (p : payload) (w : world) : outcome * world :=
  chat_loop p (range 1 (TRIES + 1)) w.

(** The wait after the failed attempt [a], when the product can be
    computed (NaN stands in when it cannot). *)
Definition wait (a : Z) : float := default NaN (times BACKOFF a).

(** The wait after the failed attempt [a] and the request that follows. *)
Definition wait_and_post (p : payload) (a : nat) : list event :=
  [Sleep (wait (Z.of_nat a)); Post p].

(** The log of [k] attempts in a row, numbered from [1]. *)
Definition attempts_log (p : payload) (k : nat) : list event :=
  match k with
  | 0 => []
  | S k' => Post p :: flat_map (wait_and_post p) (seq 1 k')
  end.

Definition is_post (e : event) : bool :=
  match e with Post _ => true | Sleep _ => false end.

(** The number of requests in a log. *)
Definition posts_in (l : list event) : nat :=
  length (filter (fun e => is_post e = true) l).

(** The outcome of the attempt number [j + 1] of a call that starts in [w]. *)
Definition attempt_result (p : payload) (w : world) (j : nat)
  : error + str * data :=
  decode (net (sent w + j) p).

Definition fails (p : payload) (w : world) (j : nat) : Prop :=
  exists e, attempt_result p w j = inl e.

Definition raises (r : outcome) : Prop :=
  match r with Raised _ => True | _ => False end.

(** Every wait of a call is one [time.sleep] accepts: the product can be
    computed and is accepted for each attempt number that another attempt
    can follow. *)
Definition waits_accepted : Prop :=
  forall a, (1 <= a < TRIES)%Z ->
            exists d, times BACKOFF a = Some d /\ accepted d = true.

End Chat.

(** The product of the sample endpoints: exact, as the float product is
    for the small dyadic backoffs used with them. *)
Definition exact_times (x : float) (n : Z) : option float :=
  if (n =? 1)%Z then Some x
  else match x with
       | Finite q => Some (Finite (q * inject_Z n))
       | Infinity =>
           Some (if (0 <? n)%Z then Infinity
                 else if (n <? 0)%Z then NegInfinity else NaN)
       | NegInfinity =>
           Some (if (0 <? n)%Z then NegInfinity
                 else if (n <? 0)%Z then Infinity else NaN)
       | NaN => Some NaN
       end.

(** Sample endpoints: one that refuses every connection, and one that
    refuses the first request and answers the second. *)
Definition refusing (tries : Z) (backoff : Q) : Endpoint :=
  {| payload := unit; data := str;
     first_choice := Some;
     net := fun _ _ => Unreachable (lit "connection refused");
     TRIES := tries; BACKOFF := Finite backoff;
     times := exact_times; times_one := fun _ => eq_refl;
     SLEEP_MAX := 9223372036 |}.

Definition recovering (tries : Z) (backoff : Q) : Endpoint :=
  {| payload := unit; data := str;
     first_choice := Some;
     net := fun n _ =>
              match n with
              | 0 => Unreachable (lit "connection refused")
              | _ => Response 200 (lit "{}") (Some (lit " three posts "))
              end;
     TRIES := tries; BACKOFF := Finite backoff;
     times := exact_times; times_one := fun _ => eq_refl;
     SLEEP_MAX := 9223372036 |}.

(** The world before the first request. *)
Definition fresh `{Endpoint} : world := {| sent := 0; log := [] |}.

End Client.

(** ** The queue processor *)

Module Queue.

(** [sorted] on strings: code point by code point. *)
Fixpoint str_leb (a b : str) : bool :=
  match a, b with
  | [], _ => true
  | _ :: _, [] => false
  | x :: a', y :: b' =>
      if (x <? y)%N then true
      else if (y <? x)%N then false
      else str_leb a' b'
  end.

Definition str_le (a b : str) : Prop := str_leb a b = true.

#[global] Instance str_le_dec a b : Decision (str_le a b).
Proof. unfold str_le. apply _. Defined.

(** What [task.get("goal")] gives on a decoded task: nothing or a falsy
    value, a text, or another truthy value (a number, [true], a non-empty
    list or object), on which [.strip()] raises. *)
Inductive goal_field :=
| NoGoal
| Goal (s : str)
| BadGoal.

(** What [task.get("id")] gives: nothing or a falsy value, a truthy value
    that can be a member of a set (a text, a number, [true]), or one that
    cannot (a non-empty list or object), on which [tid in processed]
    raises. *)
Inductive id_field (K : Type) :=
| NoId
| Id (k : K)
| BadId.

Arguments NoId {K}.
Arguments Id {K} k.
Arguments BadId {K}.

(** A decoded line: an object, or a JSON value without [.get]. *)
Inductive line_value (K : Type) :=
| NotAnObject
| Task (goal : goal_field) (id : id_field K).

Arguments NotAnObject {K}.
Arguments Task {K} goal id.

(** The value of ["processed"] in [state.json]: absent, something [set]
    turns into a set with the members [l], or something on which [set]
    raises (a number, [null], [true], a list that holds a list). *)
Inductive processed_field (K : Type) :=
| Missing
| Members (l : list K)
| NotASet.

Arguments Missing {K}.
Arguments Members {K} l.
Arguments NotASet {K}.

(** What the queue runs on.  [ext] is everything outside the process (the
    working tree, the repository, the endpoint), [extra] the keys of
    [state.json] other than ["processed"].  [key] is the type of the
    values a Python set holds here (texts, numbers and booleans, two of
    them equal when a set takes them for one member) and [text] the text
    among them.  [sorted l] is [None] when two members of [l] do not compare
    ([TypeError]) and a rearrangement of [l] otherwise.  [json_loads line]
    is [None] when [json.loads] raises; [task_id_for goal] is the first 12
    hex digits of the SHA-1 of [goal]; the three effectful steps yield
    [None] when they raise.  The task file is taken to be readable as
    UTF-8, and writing [state.json] to succeed. *)
Class Host := {
  ext : Type;
  path : Type;
  extra : Type;
  no_extra : extra;
  key : Type;
  key_eq_dec :: EqDecision key;
  key_countable :: Countable key;
  text : str -> key;
  sorted : list key -> option (list key);
  sorted_Permutation : forall l l', sorted l = Some l' -> l' ≡ₚ l;
  json_loads : str -> option (line_value key);
  task_id_for : str -> str;
  checkout_task_branch : str -> ext -> option (str * ext);
  run_pipeline : str -> ext -> option (path * path * ext);
  commit_artifacts : str -> path -> path -> ext -> option ext
}.

Section RunQueue.
Context `{Host}.

(** A [state.json] that holds an object. *)
Record state := { processed_key : processed_field key; other_keys : extra }.

(** The file [state.json]: absent, unreadable (not JSON), holding an
    object, or holding another JSON value. *)
Inductive state_file :=
| Absent
| Unreadable
| Holds (st : state)
| HoldsOther.

Inductive event :=
| Checkout (goal : str)
| Pipeline (goal : str)
| Commit (goal : str).

Record world := { outside : ext; log : list event; STATE_F : state_file }.

(** [load_state()]; [None] stands for a JSON value that is not an object,
    which [load_state] returns as it is and on which [state.get] raises. *)
Definition load_state (w : world) : option state :=
  match STATE_F w with
  | Holds st => Some st
  | HoldsOther => None
  | _ => Some {| processed_key := Members []; other_keys := no_extra |}
  end.

Definition save_state (st : state) (w : world) : world :=
  {| outside := outside w; log := log w; STATE_F := Holds st |}.

(** [set(state.get("processed", []))] *)
Definition members (st : state) : option (gset key) :=
  match processed_key st with
  | Missing => Some ∅
  | Members l => Some (list_to_set l)
  | NotASet => None
  end.

(** The processed set [run_queue] starts from, empty when there is none. *)
Definition loaded (w : world) : gset key :=
  default ∅ (load_state w ≫= members).

(** [(task.get("goal") or "").strip()] *)
Definition goal_of (g : goal_field) : option str :=
  match g with
  | NoGoal => Some []
  | Goal s => Some (strip s)
  | BadGoal => None
  end.

(** [task.get("id") or task_id_for(goal)], as far as the membership test
    that follows accepts it. *)
Definition id_of (i : id_field key) (goal : str) : option key :=
  match i with
  | NoId => Some (text (task_id_for goal))
  | Id k => Some k
  | BadId => None
  end.

(** The id under which the loop looks a line up, when it gets that far. *)
Definition queued_id (line : str) : option key :=
  let line := strip line in
  if bool_decide (line = []) then None
  else match json_loads line with
       | Some (Task g i) =>
           match goal_of g with
           | Some goal => if bool_decide (goal = []) then None else id_of i goal
           | None => None
           end
       | _ => None
       end.

(** One iteration of [for line in f]; [None] when an exception leaves
    it. *)
Definition process_line (line : str) (acc : gset key * world)
  : option (gset key * world) :=
  let '(processed, w) := acc in
  let line := strip line in
  if bool_decide (line = []) then Some acc
  else match json_loads line with
       | None => Some acc
       | Some NotAnObject => None
       | Some (Task g i) =>
           goal ← goal_of g;
           if bool_decide (goal = []) then Some acc
           else
             tid ← id_of i goal;
             if bool_decide (tid ∈ processed) then Some acc
             else
               let w := {| outside := outside w;
                           log := log w ++ [Checkout goal];
                           STATE_F := STATE_F w |} in
               '(branch, e) ← checkout_task_branch goal (outside w);
               let w := {| outside := e;
                           log := log w ++ [Pipeline goal];
                           STATE_F := STATE_F w |} in
               '(out_path, log_path, e) ← run_pipeline goal (outside w);
               let w := {| outside := e;
                           log := log w ++ [Commit goal];
                           STATE_F := STATE_F w |} in
               e ← commit_artifacts goal out_path log_path (outside w);
               Some ({[ tid ]} ∪ processed,
                     {| outside := e; log := log w; STATE_F := STATE_F w |})
       end.

Fixpoint process_lines (lines : list str) (acc : gset key * world)
  : option (gset key * world) :=
  match lines with
  | [] => Some acc
  | line :: rest => acc ← process_line line acc; process_lines rest acc
  end.


(** [run_queue()]; [TASKS_F] is [None] when the task file does not exist.
    The result is [None] when an exception leaves the function. *)
Definition run_queue (TASKS_F : option (list str)) (w : world)
  : option world :=
  st ← load_state w;
  processed ← members st;
  match TASKS_F with
  | None => Some w
  | Some lines =>
      '(processed, w) ← process_lines lines (processed, w);
      l ← sorted (elements processed);
      let st := {| processed_key := Members l; other_keys := other_keys st |} in
      Some (save_state st w)
  end.

End RunQueue.

(** A sample host: every id is a text, a task line is its own goal, the id
    of a goal is the goal, and every effectful step succeeds. *)
Definition plain_host : Host :=
  {| ext := unit; path := unit; extra := unit; no_extra := tt;
     key := str; text := fun s => s;
     sorted := fun l => Some (merge_sort str_le l);
     sorted_Permutation :=
       fun l l' E =>
         eq_ind (merge_sort str_le l) (fun x => x ≡ₚ l)
           (merge_sort_Permutation str_le l) l'
           (f_equal (default []) E);
     json_loads := fun line => Some (Task (Goal line) NoId);
     task_id_for := fun goal => goal;
     checkout_task_branch := fun goal e => Some (goal, e);
     run_pipeline := fun _ e => Some (tt, tt, e);
     commit_artifacts := fun _ _ _ e => Some e |}.


(** Two task lines, and the world before the first run: no state file. *)
Definition two_tasks : list str :=
  [lit "write the intro"; lit "thank the donors"].

Definition untouched : @world plain_host :=
  @Build_world plain_host tt [] (@Absent plain_host).

End Queue.

(** ** Further definitions *)

(** A text that neither starts nor ends with whitespace: what [str.strip]
    returns. *)
Definition trimmed (s : str) : Prop :=
  (forall c s', s = c :: s' -> isspace c = false)
  /\ (forall s' d, s = s' ++ [d] -> isspace d = false).

(** [s.lstrip(chars)], [s.rstrip(chars)] and [s.strip(chars)] for a set of
    characters given by its membership test. *)
Fixpoint lstrip_chars (f : char -> bool) (s : str) : str :=
  match s with
  | c :: s' => if f c then lstrip_chars f s' else s
  | [] => []
  end.

Definition rstrip_chars (f : char -> bool) (s : str) : str :=
  reverse (lstrip_chars f (reverse s)).

Definition strip_chars (f : char -> bool) (s : str) : str :=
  rstrip_chars f (lstrip_chars f s).

(** A pattern that looks at the text before the position it is tried at:
    one with a line start or a word boundary in it. *)
Fixpoint looks_behind (r : re) : bool :=
  match r with
  | Bol | WordB => true
  | Seq a b | Alt a b => looks_behind a || looks_behind b
  | Opt a => looks_behind a
  | _ => false
  end.

(** The role names of [META_RE]. *)
Definition ROLE_TAGS : list string :=
  ["PLANNER"%string; "WORKER"%string; "CRITIC"%string; "REVISER"%string;
   "LOG"%string].

(** ** Branch names *)

Section Slug.
Context `{UnicodeData}.

(** [re.sub(r, rep, s)] for a pattern without groups that takes at least
    one character with every match: the pieces between the matches, joined
    by the replacement. *)
Definition replace_all (s : str) (r : re) (rep : str) : str :=
  join rep (split s r).

Definition ascii_isalnum (c : char) : bool :=
  ascii_isupper c || ascii_islower c || ascii_isdigit c.

(** [[^a-zA-Z0-9]+] *)
Definition NON_ALNUM_RE : re := Plus (fun c => negb (ascii_isalnum c)).

Definition DASH : char := 45%N.

Definition is_dash (c : char) : bool := (c =? DASH)%N.

(** [slugify(s, maxlen)]: the source's default [maxlen] is 40. *)
Definition slugify (s : str) (maxlen : Z) : str :=
  let s := strip_chars is_dash (replace_all (lower (strip s)) NON_ALNUM_RE [DASH]) in
  match strip_chars is_dash (slice_to s maxlen) with
  | [] => lit "task"
  | t => t
  end.

(** The characters of a slug. *)
Definition slug_char (c : char) : bool := ascii_isalnum c || is_dash c.

End Slug.

(** ** The pipeline *)

Module Pipeline.
Import Client.

Definition EN_DASH : char := 8211%N.
Definition BULLET : char := 8226%N.
Definition AT_MOST : char := 8804%N.

(** A chat message, [{"role": ..., "content": ...}]. *)
Record message := { role : str; content : str }.

(** What [run_pipeline] runs on, beside the endpoint.  [model] is the type
    of a model id and [request model_id messages] the payload [chat]
    builds from it, with the default temperature and token limit.
    [now n] is the time stamp [datetime.now().strftime("%Y%m%d-%H%M%S")]
    read when [n] files have been written, and [writable n] tells whether
    the next [write_text] succeeds.  Output to the console is not
    modelled. *)
Class Config `{Endpoint} := {
  model : Type;
  PLANNER_MODEL : model;
  WORKER_MODEL : model;
  API_BASE : str;
  request : model -> list message -> payload;
  now : nat -> str;
  writable : nat -> bool
}.

Section RunPipeline.
Context `{UnicodeData} `{Endpoint} `{!Config}.

Definition planner_messages (goal : str) : list message :=
  [ {| role := lit "system";
       content :=
         lit "You are the Planner. Output ONLY a numbered, concrete 3"
           ++ [EN_DASH] ++ lit "5 step plan. No explanations." |};
    {| role := lit "user";
       content :=
         lit "Goal: " ++ goal ++ [NEWLINE]
           ++ lit "Constraints: single human, no paid APIs, local runtime, small model, paste-ready output." |} ].

Definition role_planner (goal : str) (c : Client.world)
  : outcome * Client.world :=
  chat (request PLANNER_MODEL (planner_messages goal)) c.

Definition DELIVERABLE_RULES : str :=
  lit "Deliverable rules:" ++ [NEWLINE]
    ++ [BULLET] ++ lit " Exactly 3 social posts." ++ [NEWLINE]
    ++ [BULLET] ++ lit " Each " ++ [AT_MOST] ++ lit " 280 characters."
    ++ [NEWLINE]
    ++ [BULLET]
    ++ lit " Each ends with a clear CTA to join the mailing list. Use https://trieboldinstitute.org/join if no link."
    ++ [NEWLINE]
    ++ [BULLET]
    ++ lit " Return exactly three lines, one post per line, plain text.".

Definition worker_messages (plan_text goal : str) : list message :=
  [ {| role := lit "system";
       content :=
         lit "You are the Worker. Output ONLY the deliverable. Exactly three lines, one post per line. No numbering, no preface, no counters." |};
    {| role := lit "user";
       content :=
         DELIVERABLE_RULES
           ++ [NEWLINE; NEWLINE] ++ lit "Plan:" ++ [NEWLINE] ++ plan_text
           ++ [NEWLINE; NEWLINE] ++ lit "Goal:" ++ [NEWLINE] ++ goal |} ].

Definition role_worker (plan_text goal : str) (c : Client.world)
  : outcome * Client.world :=
  chat (request WORKER_MODEL (worker_messages plan_text goal)) c.

(** The entries of [transcript["steps"]], by their ["role"]. *)
Inductive step :=
| Planner (response : str) (raw : data)
| Worker (response : str) (raw : data)
| Critic (ok : bool) (feedback : list str) (parsed_posts : list str)
| Reviser (response : str).

Record transcript := {
  t_goal : str;
  t_planner_model : model;
  t_worker_model : model;
  t_api_base : str;
  t_steps : list step
}.

(** A file of [OUT_DIR] or of [LOG_DIR], by its name. *)
Inductive path :=
| OUT_DIR (name : str)
| LOG_DIR (name : str).

(** What a file holds after a write: the text, the transcript (its
    rendering by [json.dumps] is not modelled), or, after a write that
    raised, nothing that can be relied on. *)
Inductive contents :=
| Text (text : str)
| Json (obj : transcript)
| Unfinished.

Record world := { network : Client.world; written : list (path * contents) }.

Inductive failure :=
| ChatRaised (e : error)
| NotIterable                (* unpacking [None] into two names *)
| WriteFailed.

(** Computations of the pipeline: they may raise, and they change the
    world. *)
Definition M (A : Type) : Type := world -> (failure + A) * world.

Definition ret {A} (a : A) : M A := fun w => (inr a, w).

Definition bind {A B} (m : M A) (k : A -> M B) : M B :=
  fun w =>
    match m w with
    | (inl e, w') => (inl e, w')
    | (inr a, w') => k a w'
    end.

Local Notation "'let*' x ':=' m 'in' k" := (bind m (fun x => k))
  (at level 10, x pattern, m at level 200, k at level 200).

Definition timestamp : M str :=
  fun w => (inr (now (length (written w))), w).

Definition write_text (p : path) (c : contents) : M unit :=
  fun w =>
    if writable (length (written w))
    then (inr tt, {| network := network w; written := written w ++ [(p, c)] |})
    else (inl WriteFailed,
          {| network := network w; written := written w ++ [(p, Unfinished)] |}).

Definition save_json (stem : str) (obj : transcript) : M path :=
  let* ts := timestamp in
  let p := LOG_DIR (ts ++ lit "-" ++ stem ++ lit ".json") in
  let* _ := write_text p (Json obj) in
  ret p.

Definition save_text (stem : str) (text : str) : M path :=
  let* ts := timestamp in
  let p := OUT_DIR (ts ++ lit "-" ++ stem ++ lit ".txt") in
  let* _ := write_text p (Text text) in
  ret p.

(** [text, raw = role(...)]: calling a role and unpacking its result. *)
Definition unpack (call : Client.world -> outcome * Client.world)
  : M (str * data) :=
  fun w =>
    let '(r, c) := call (network w) in
    let w := {| network := c; written := written w |} in
    match r with
    | Returned text d => (inr (text, d), w)
    | ReturnedNone => (inl NotIterable, w)
    | Raised e => (inl (ChatRaised e), w)
    end.

Definition run_pipeline (goal : str) : M (path * path) :=
  let transcript steps :=
    {| t_goal := goal; t_planner_model := PLANNER_MODEL;
       t_worker_model := WORKER_MODEL; t_api_base := API_BASE;
       t_steps := steps |} in
  let* (plan, raw1) := unpack (role_planner goal) in
  let steps := [Planner plan raw1] in
  let* (work, raw2) := unpack (role_worker plan goal) in
  let steps := steps ++ [Worker work raw2] in
  let '(ok, feedback, posts) := role_critic work in
  let steps := steps ++ [Critic ok feedback posts] in
  let '(steps, work) :=
    if negb ok
    then let revised := role_reviser posts feedback in
         (steps ++ [Reviser revised], revised)
    else (steps, work) in
  let* out_path := save_text (lit "social-intro") (sanitize work) in
  let* log_path := save_json (lit "planner-worker-critic") (transcript steps) in
  ret (out_path, log_path).

(** The steps a transcript lists once the worker has answered [work]: the
    reviser's step is there exactly when the critic rejected. *)
Definition steps_of (plan : str) (raw1 : data) (work : str) (raw2 : data)
  : list step :=
  [Planner plan raw1; Worker work raw2;
   Critic (role_critic work).1.1 (role_critic work).1.2 (role_critic work).2]
    ++ (if (role_critic work).1.1 then [] else [Reviser (guarded work)]).

End RunPipeline.

(** Sample configurations over the sample endpoints: every file can be
    written. *)
Definition recovering_config (tries : Z) (backoff : Q)
  : @Config (recovering tries backoff) :=
  @Build_Config (recovering tries backoff) unit tt tt
    (lit "http://localhost:1234/v1")
    (fun _ _ => tt)
    (fun _ => lit "20240101-120000")
    (fun _ => true).

Definition refusing_config (tries : Z) (backoff : Q)
  : @Config (refusing tries backoff) :=
  @Build_Config (refusing tries backoff) unit tt tt
    (lit "http://localhost:1234/v1")
    (fun _ _ => tt)
    (fun _ => lit "20240101-120000")
    (fun _ => true).

(** The world before a run. *)
Definition idle `{Endpoint} `{!Config} : world :=
  {| network := fresh; written := [] |}.

End Pipeline.

(** * Properties *)

(** A match that cannot start here: the list of its ends is empty. *)
Ltac no_end := by intros ?%elem_of_nil.

(** The closing step of the index arguments about the retry loop. *)
Ltac close_indices := repeat split; first [done | lia | intros; lia].

(** ** Strings and truncation *)

Lemma length_lstrip s : length (lstrip s) <= length s.
Proof. induction s as [|c s IH]; simpl; [lia|]. destruct (isspace c); simpl; lia. Qed.

Lemma length_rstrip s : length (rstrip s) <= length s.
Proof.
  unfold rstrip. rewrite length_reverse.
  etrans; [apply length_lstrip|]. by rewrite length_reverse.
Qed.

Lemma rstrip_snoc s c : isspace c = false -> rstrip (s ++ [c]) = s ++ [c].
Proof.
  intros Hc. unfold rstrip. rewrite reverse_snoc. simpl. rewrite Hc.
  by rewrite <- reverse_snoc, reverse_involutive.
Qed.

Lemma slice_to_nonneg s k : (0 <= k)%Z -> slice_to s k = take (Z.to_nat k) s.
Proof. intros Hk. unfold slice_to. destruct (Z.ltb_spec k 0); [lia|done]. Qed.

(** [last_index_from] returns the greatest index holding [c], offset by [i]. *)
Lemma last_index_from_spec c s : forall i best,
  match last_index_from c i s best with
  | Some r =>
      (best = Some r /\ (forall j, j < length s -> s !! j <> Some c))
      \/ (i <= r /\ s !! (r - i) = Some c
          /\ forall j, r - i < j -> s !! j <> Some c)
  | None => best = None /\ forall j, s !! j <> Some c
  end.
Proof.
  induction s as [|x s IH]; intros i best; simpl.
  - destruct best; [left|]; split; try done; intros; by rewrite lookup_nil.
  - specialize (IH (S i) (if (x =? c)%N then Some i else best)).
    destruct (last_index_from c (S i) s _) as [r|].
    + destruct IH as [[Hb Hno]|(Hle & Hr & Hno)].
      * destruct (N.eqb_spec x c) as [->|Hne].
        -- inversion Hb; subst r. right. split; [lia|]. rewrite Nat.sub_diag. split; [done|].
           intros [|j] Hj; [lia|]. simpl.
           destruct (decide (j < length s)); [by apply Hno|].
           assert (length s <= j) as Hge by lia. rewrite lookup_ge_None_2 by done. done.
        -- left. split; [done|]. intros [|j] Hj; simpl; [congruence|apply Hno; lia].
      * right. split; [lia|]. replace (r - i) with (S (r - S i)) by lia. split; [done|].
        intros [|j] Hj; [lia|]. simpl. apply Hno. lia.
    + destruct IH as [Hb Hno]. destruct (N.eqb_spec x c); [done|].
      split; [done|]. intros [|j]; simpl; [congruence|apply Hno].
Qed.

Lemma rfind_spec c s e : (0 <= e)%Z ->
  let r := rfind c s e in
  (r = (-1)%Z /\ forall j, j < Z.to_nat e -> s !! j <> Some c)
  \/ exists i, r = Z.of_nat i /\ i < Z.to_nat e /\ s !! i = Some c
       /\ forall j, i < j -> j < Z.to_nat e -> s !! j <> Some c.
Proof.
  intros He. unfold rfind. rewrite slice_to_nonneg by done.
  pose proof (last_index_from_spec c (take (Z.to_nat e) s) 0 None) as Hs.
  destruct (last_index_from c 0 (take (Z.to_nat e) s) None) as [r|].
  - right. exists r. destruct Hs as [[? _]|(_ & Hr & Hno)]; [done|].
    rewrite Nat.sub_0_r in Hr, Hno.
    apply lookup_take_Some in Hr as [Hr Hlt].
    repeat split; try done.
    intros j Hj1 Hj2 Hc. apply (Hno j Hj1). by rewrite lookup_take_lt.
  - left. destruct Hs as [_ Hno]. split; [done|].
    intros j Hj Hc. apply (Hno j). by rewrite lookup_take_lt.
Qed.

Lemma isspace_ELLIPSIS : isspace ELLIPSIS = false.
Proof. reflexivity. Qed.

(** The shape of a truncated text. *)
Lemma trim_to_limit_cases text limit :
  (limit < Z.of_nat (length text))%Z ->
  (exists i, (Z.of_nat i < limit - 1)%Z /\ text !! i = Some SPACE
     /\ (forall j, i < j -> (Z.of_nat j < limit - 1)%Z -> text !! j <> Some SPACE)
     /\ trim_to_limit text limit = take i text ++ [ELLIPSIS])
  \/ ((forall j, (Z.of_nat j < limit - 1)%Z -> text !! j <> Some SPACE)
      /\ trim_to_limit text limit = slice_to text (limit - 1) ++ [ELLIPSIS]).
Proof.
  intros Hlen. unfold trim_to_limit.
  destruct (Z.leb_spec (Z.of_nat (length text)) limit); [lia|].
  destruct (rfind_spec SPACE text (Z.max 0 (limit - 1)))
    as [[-> Hno]|(i & -> & Hi & Hsp & Hno)]; [lia| |].
  - right. split; [intros j Hj; apply Hno; lia|]. simpl.
    by rewrite rstrip_snoc.
  - left. exists i. split; [lia|]. split; [done|].
    split; [intros j ? ?; apply Hno; lia|].
    destruct (Z.eqb_spec (Z.of_nat i) (-1)); [lia|]. simpl.
    rewrite slice_to_nonneg by lia. rewrite Nat2Z.id. by rewrite rstrip_snoc.
Qed.

Lemma trim_to_limit_id text limit :
  (Z.of_nat (length text) <= limit)%Z -> trim_to_limit text limit = text.
Proof.
  intros Hle. unfold trim_to_limit.
  by destruct (Z.leb_spec (Z.of_nat (length text)) limit); [|lia].
Qed.

(** The length of a truncated text, counted as the source's callers need
    it. *)
Lemma trim_to_limit_fits text limit :
  (1 <= limit)%Z -> length (trim_to_limit text limit) <= Z.to_nat limit.
Proof.
  intros Hl. destruct (Z.le_gt_cases (Z.of_nat (length text)) limit) as [Hle|Hgt].
  - rewrite trim_to_limit_id by done. lia.
  - destruct (trim_to_limit_cases text limit) as [(i & Hi & _ & _ & ->)|[_ ->]];
      [lia| |]; rewrite ?slice_to_nonneg by lia;
      rewrite length_app, length_take; simpl; lia.
Qed.

(** C3, amended.  For every text and every limit of at least 1,
    [trim_to_limit text limit] is at most [limit] characters long. *)
Theorem trim_to_limit_within_limit text limit :
  (1 <= limit)%Z -> (Z.of_nat (length (trim_to_limit text limit)) <= limit)%Z.
Proof.
  intros Hl.
  destruct (Z.le_gt_cases (Z.of_nat (length text)) limit) as [Hle|Hgt].
  - by rewrite trim_to_limit_id.
  - destruct (trim_to_limit_cases text limit) as [(i & Hi & _ & _ & Hcut)|[_ Hcut]];
      [lia| |]; rewrite Hcut, ?slice_to_nonneg by lia;
      rewrite length_app, length_take; simpl; lia.
Qed.

Lemma trim_to_limit_within_limit_witness :
  (Z.of_nat (length (trim_to_limit (lit "aaaa bbbbbbbbbb") 10)) <= 10)%Z.
Proof. apply trim_to_limit_within_limit. lia. Defined.

(** C3, as stated, fails at the limits 0 and -1: the slice [text[:limit-1]]
    then counts from the end of the text, and the result keeps the
    ellipsis. *)
Lemma trim_to_limit_zero_limit_too_long :
  trim_to_limit (lit "ab") 0 = [97%N; ELLIPSIS]
  /\ ~ (Z.of_nat (length (trim_to_limit (lit "ab") 0)) <= 0)%Z
  /\ trim_to_limit (lit "ab") (-1) = [ELLIPSIS]
  /\ ~ (Z.of_nat (length (trim_to_limit (lit "ab") (-1))) <= -1)%Z.
Proof.
  assert (trim_to_limit (lit "ab") 0 = [97%N; ELLIPSIS]) as -> by reflexivity.
  assert (trim_to_limit (lit "ab") (-1) = [ELLIPSIS]) as -> by reflexivity.
  simpl. repeat split; lia.
Qed.

(** Where the code cuts a text longer than the limit: at the last space
    character (U+0020) strictly before position [limit - 1] when there is
    one, after which the right-trim removes nothing, and otherwise with the
    slice [text[:limit-1]].  On "aaaa bbbbbbbbbb" with limit 10 the result
    ends at the space. *)
Lemma trim_to_limit_cut_rule text limit :
  (limit < Z.of_nat (length text))%Z ->
  (forall i,
      (Z.of_nat i < limit - 1)%Z -> text !! i = Some SPACE ->
      (forall j, i < j -> (Z.of_nat j < limit - 1)%Z -> text !! j <> Some SPACE) ->
      trim_to_limit text limit = rstrip (take i text ++ [ELLIPSIS])
      /\ rstrip (take i text ++ [ELLIPSIS]) = take i text ++ [ELLIPSIS])
  /\ ((forall j, (Z.of_nat j < limit - 1)%Z -> text !! j <> Some SPACE) ->
      trim_to_limit text limit = slice_to text (limit - 1) ++ [ELLIPSIS]
      /\ ((1 <= limit)%Z ->
          slice_to text (limit - 1) = take (Z.to_nat (limit - 1)) text))
  /\ trim_to_limit (lit "aaaa bbbbbbbbbb") 10 = lit "aaaa" ++ [ELLIPSIS].
Proof.
  intros Hlen. split; [|split; [|reflexivity]].
  - intros i Hi Hsp Hlast. rewrite rstrip_snoc by done. split; [|done].
    destruct (trim_to_limit_cases text limit Hlen)
      as [(i' & Hi' & Hsp' & Hlast' & ->)|[Hno _]].
    + destruct (Nat.lt_trichotomy i i') as [Hlt|[->|Hgt]]; [|done|].
      * by destruct (Hlast i').
      * by destruct (Hlast' i).
    + by destruct (Hno i).
  - intros Hno. split; [|intros; apply slice_to_nonneg; lia].
    destruct (trim_to_limit_cases text limit Hlen)
      as [(i & Hi & Hsp & _)|[_ ->]]; [|done].
    by destruct (Hno i).
Qed.

(** C6.  The code does not cut where the claim says.  With limit 10 it
    cuts "aaaa", a tab and ten "b" in the middle of the word, where the
    claim cuts at the tab; and it cuts "aa bbbbbb ccccc" at the space at
    position 2, where the claim cuts at the space at position 9, which is
    position [limit - 1]: the source looks for the space character only,
    and [rfind] stops one position short.  The same happens at the limit
    [ensure_cta] passes: a post of 310 characters that starts with
    "subscribe" and a tab is handed to [trim_to_limit] with limit 280 and
    cut in the middle of its second word. *)
Lemma trim_to_limit_not_as_specified :
  trim_to_limit (lit "aaaa" ++ [9%N] ++ lit "bbbbbbbbbb") 10
  = lit "aaaa" ++ [9%N] ++ lit "bbbb" ++ [ELLIPSIS]
  /\ trim_as_specified (lit "aaaa" ++ [9%N] ++ lit "bbbbbbbbbb") 10
     = lit "aaaa" ++ [ELLIPSIS]
  /\ trim_to_limit (lit "aa bbbbbb ccccc") 10 = lit "aa" ++ [ELLIPSIS]
  /\ trim_as_specified (lit "aa bbbbbb ccccc") 10
     = lit "aa bbbbbb" ++ [ELLIPSIS]
  /\ trim_to_limit (lit "aaaa" ++ [9%N] ++ lit "bbbbbbbbbb") 10
     <> trim_as_specified (lit "aaaa" ++ [9%N] ++ lit "bbbbbbbbbb") 10
  /\ trim_to_limit (lit "aa bbbbbb ccccc") 10
     <> trim_as_specified (lit "aa bbbbbb ccccc") 10
  /\ @ensure_cta ascii_only [tabbed_post] = [trim_to_limit tabbed_post 280]
  /\ trim_to_limit tabbed_post 280
     = lit "subscribe" ++ [9%N] ++ replicate 269 98%N ++ [ELLIPSIS]
  /\ trim_as_specified tabbed_post 280 = lit "subscribe" ++ [ELLIPSIS].
Proof.
  repeat split; first [reflexivity | by vm_compute | vm_compute; discriminate].
Qed.

Lemma split_on_from_app c a b : forall cur,
  split_on_from c cur (a ++ c :: b) = split_on_from c cur a ++ split_on c b.
Proof.
  induction a as [|x a IH]; intros cur; simpl.
  - by rewrite N.eqb_refl.
  - destruct (x =? c)%N; [by rewrite IH|apply IH].
Qed.

Lemma split_on_from_none c s : forall cur,
  c ∉ s -> split_on_from c cur s = [reverse cur ++ s].
Proof.
  induction s as [|x s IH]; intros cur Hc; simpl.
  - by rewrite app_nil_r.
  - apply not_elem_of_cons in Hc as [Hne Hc].
    destruct (N.eqb_spec x c); [congruence|].
    rewrite IH by done. by rewrite reverse_cons, <- app_assoc.
Qed.

Lemma split_on_none c s : c ∉ s -> split_on c s = [s].
Proof. intros. unfold split_on. by rewrite split_on_from_none. Qed.

Lemma split_on_join c l :
  l <> [] -> split_on c (join [c] l) = flat_map (split_on c) l.
Proof.
  induction l as [|x l IH]; [done|]. intros _.
  destruct l as [|y l].
  - simpl. by rewrite app_nil_r.
  - change (join [c] (x :: y :: l)) with (x ++ c :: join [c] (y :: l)).
    unfold split_on at 1. rewrite split_on_from_app.
    rewrite IH by done. done.
Qed.

Lemma lstrip_subseteq s : lstrip s ⊆ s.
Proof.
  induction s as [|c s IH]; [done|]. simpl. destruct (isspace c); [|done].
  intros x Hx. right. by apply IH.
Qed.

Lemma rstrip_subseteq s : rstrip s ⊆ s.
Proof.
  unfold rstrip. intros x Hx. rewrite elem_of_reverse in Hx.
  apply lstrip_subseteq in Hx. by rewrite elem_of_reverse in Hx.
Qed.

Lemma slice_to_subseteq s k : slice_to s k ⊆ s.
Proof.
  unfold slice_to. destruct (k <? 0)%Z; apply subseteq_take.
Qed.

Lemma trim_to_limit_chars text limit c :
  c ∈ trim_to_limit text limit -> c ∈ text \/ c = ELLIPSIS.
Proof.
  unfold trim_to_limit. destruct (_ <=? _)%Z; [by left|].
  destruct (negb _); intros Hc%rstrip_subseteq;
    apply elem_of_app in Hc as [Hc%slice_to_subseteq|Hc%list_elem_of_singleton]; auto.
Qed.


(** ** The guardrails *)

Section GuardrailProperties.
Context `{UnicodeData}.

Lemma contains_app_r needle x t : contains needle t = true -> contains needle (x ++ t) = true.
Proof.
  intros Ht. induction x as [|c x IH]; [done|].
  simpl. rewrite IH. apply orb_true_r.
Qed.

Lemma lower_app_ascii q t :
  Forall (fun c => is_ascii c = true) t ->
  exists x, lower (q ++ t) = x ++ map ascii_lower t.
Proof.
  intros Ht. unfold lower. rewrite imap_app, concat_app.
  eexists. f_equal.
  generalize (q ++ t) (length q). intros s n.
  induction Ht as [|c t Hc _ IH] in n |- *; [done|].
  simpl. rewrite <- (IH (S n)).
  assert (lower_at s (n + 0) c = [ascii_lower c]) as ->.
  { unfold lower_at, lower_full. rewrite Hc.
    by destruct (N.eqb_spec c 931) as [->|]. }
  simpl. do 2 f_equal. apply imap_ext. intros. simpl. f_equal. lia.
Qed.

Lemma ends_ge s r : forall i j, j ∈ ends s r i -> i <= j.
Proof.
  induction r; intros i j; cbn [ends].
  - intros ->%list_elem_of_singleton. done.
  - destruct (s !! i) as [c|]; [|no_end]. destruct (f c); [|no_end].
    intros ->%list_elem_of_singleton. lia.
  - rewrite list_elem_of_In, in_flat_map. intros (m & Hm & Hj).
    rewrite <- list_elem_of_In in Hm, Hj.
    etrans; [by apply IHr1|by apply IHr2].
  - rewrite elem_of_app. intros [?|?]; [by apply IHr1|by apply IHr2].
  - rewrite elem_of_app. intros [?| ->%list_elem_of_singleton]; [by apply IHr|done].
  - rewrite list_elem_of_In, in_map_iff. intros (k & <- & _). lia.
  - rewrite list_elem_of_In, in_map_iff. intros (k & <- & _). lia.
  - rewrite list_elem_of_In, in_map_iff. intros (k & <- & _). lia.
  - destruct (at_bol s i); [by intros ->%list_elem_of_singleton|no_end].
  - destruct (at_eol s i); [by intros ->%list_elem_of_singleton|no_end].
  - destruct (at_boundary s i); [by intros ->%list_elem_of_singleton|no_end].
Qed.

Lemma lookup_shift (x t : list N) i : (x ++ t) !! (length x + i) = t !! i.
Proof. rewrite lookup_app_r by lia. f_equal. lia. Qed.

(** Matching inside a suffix [t] of [x ++ t], away from its first position,
    does not look at [x]. *)
Lemma ends_shift x t r : forall i, 1 <= i ->
  ends (x ++ t) r (length x + i) = map (Nat.add (length x)) (ends t r i).
Proof.
  induction r; intros i Hi; cbn [ends].
  - done.
  - rewrite lookup_shift. destruct (t !! i) as [c|]; [|done].
    destruct (f c); [|done]. simpl. f_equal. lia.
  - rewrite IHr1 by done.
    assert (Forall (fun j => 1 <= j) (ends t r1 i)) as Hall.
    { apply Forall_forall. intros j Hj%ends_ge. lia. }
    induction Hall as [|j l Hj _ IHl]; [done|].
    simpl. rewrite map_app. rewrite IHr2 by done. by rewrite IHl.
  - by rewrite map_app, IHr1, IHr2.
  - by rewrite map_app, IHr.
  - rewrite drop_app_add'; [|done]. rewrite map_map. apply map_ext. intros; lia.
  - rewrite drop_app_add'; [|done]. rewrite map_map. apply map_ext. intros; lia.
  - rewrite drop_app_add'; [|done]. rewrite map_map. apply map_ext. intros; lia.
  - destruct i as [|i]; [lia|]. unfold at_bol. rewrite Nat.add_succ_r, lookup_shift.
    repeat case_match; simpl; try done; f_equal; lia.
  - unfold at_eol. rewrite lookup_shift.
    repeat case_match; simpl; try done; f_equal; lia.
  - destruct i as [|i]; [lia|]. unfold at_boundary, word_at.
    rewrite Nat.add_succ_r, !lookup_shift, <- Nat.add_succ_r, lookup_shift.
    destruct (negb _); simpl; try done; f_equal; lia.
Qed.

Lemma search_intro s r i :
  i <= length s -> ends s r i <> [] -> search s r = true.
Proof.
  intros Hi Hne. unfold search. apply existsb_exists. exists i. split.
  - apply in_seq. lia.
  - by rewrite bool_decide_eq_false_2.
Qed.

Lemma search_suffix x t r i :
  1 <= i -> i <= length t -> ends t r i <> [] -> search (x ++ t) r = true.
Proof.
  intros H1 H2 Hne. apply (search_intro _ _ (length x + i)).
  - rewrite length_app. lia.
  - rewrite ends_shift by done. by destruct (ends t r i).
Qed.

Lemma has_cta_short q : has_cta (q ++ SHORT_SUFFIX) = true.
Proof.
  unfold has_cta.
  change SHORT_SUFFIX with ([SPACE; EM_DASH] ++ SPACE :: lit "Join our mailing list.").
  rewrite app_assoc.
  destruct (lower_app_ascii (q ++ [SPACE; EM_DASH]) (SPACE :: lit "Join our mailing list."))
    as [x ->].
  { by vm_compute; repeat constructor. }
  destruct (contains _ _); [done|].
  rewrite (search_suffix x _ JOIN_LIST_RE 1); [done|lia|vm_compute; lia|].
  by vm_compute.
Qed.

Lemma has_cta_long q : has_cta (q ++ LONG_SUFFIX) = true.
Proof.
  unfold has_cta.
  change LONG_SUFFIX with ([SPACE; EM_DASH] ++ SPACE :: lit "Join our mailing list: https://trieboldinstitute.org/join").
  rewrite app_assoc.
  destruct (lower_app_ascii (q ++ [SPACE; EM_DASH]) (SPACE :: lit "Join our mailing list: https://trieboldinstitute.org/join"))
    as [x ->].
  { by vm_compute; repeat constructor. }
  rewrite contains_app_r; [done|]. by vm_compute.
Qed.

Lemma trim_280_length p : length (trim_to_limit p 280) <= 280.
Proof. apply (trim_to_limit_fits p 280). lia. Qed.

Lemma length_SHORT_SUFFIX : length SHORT_SUFFIX = 25.
Proof. reflexivity. Qed.
Lemma length_LONG_SUFFIX : length LONG_SUFFIX = 60.
Proof. reflexivity. Qed.

Lemma has_cta_suffixed q suffix :
  suffix = SHORT_SUFFIX \/ suffix = LONG_SUFFIX -> has_cta (q ++ suffix) = true.
Proof. intros [->| ->]; [apply has_cta_short|apply has_cta_long]. Qed.

(** What [ensure_cta] leaves of a post that fits the limit. *)
Lemma ensure_cta_post_valid p :
  length p <= 280 -> valid_post (ensure_cta_post p).
Proof.
  intros Hp. unfold ensure_cta_post.
  destruct (has_cta p) eqn:Hcta.
  { destruct (Nat.leb_spec (length p) 280); [done|lia]. }
  set (suffix := if search p URL_RE then SHORT_SUFFIX else LONG_SUFFIX).
  assert (suffix = SHORT_SUFFIX \/ suffix = LONG_SUFFIX) as Hs.
  { unfold suffix. destruct (search p URL_RE); auto. }
  assert (length suffix = 25 \/ length suffix = 60) as Hl.
  { destruct Hs as [->| ->]; auto. }
  set (p' := if 280 <? length p + length suffix
             then trim_to_limit p (280 - Z.of_nat (length suffix)) else p).
  assert (length p' + length suffix <= 280) as Hfit.
  { unfold p'. destruct (Nat.ltb_spec 280 (length p + length suffix)); [|lia].
    pose proof (trim_to_limit_fits p (280 - Z.of_nat (length suffix))). lia. }
  destruct (Nat.leb_spec (length p' + length suffix) 280); [|lia].
  split; [by rewrite length_app|by apply has_cta_suffixed].
Qed.

Lemma ensure_cta_post_id p : valid_post p -> ensure_cta_post p = p.
Proof.
  intros [Hl Hc]. unfold ensure_cta_post. rewrite Hc.
  by destruct (Nat.leb_spec (length p) 280); [|lia].
Qed.

Lemma revised_posts_map posts : revised_posts posts = map revised_post posts.
Proof. unfold revised_posts, ensure_cta. by rewrite !map_map. Qed.

Lemma revised_post_eq p :
  revised_post p = ensure_cta_post (trim_to_limit p 280).
Proof.
  unfold revised_post. apply trim_to_limit_id.
  destruct (ensure_cta_post_valid (trim_to_limit p 280)) as [Hl _];
    [apply trim_280_length|lia].
Qed.

Lemma revised_post_valid p : valid_post (revised_post p).
Proof. rewrite revised_post_eq. apply ensure_cta_post_valid, trim_280_length. Qed.

Lemma revised_post_id p : valid_post p -> revised_post p = p.
Proof.
  intros Hv. rewrite revised_post_eq.
  rewrite trim_to_limit_id by (destruct Hv; lia). by apply ensure_cta_post_id.
Qed.

Lemma revised_posts_idem posts :
  revised_posts (revised_posts posts) = revised_posts posts.
Proof.
  rewrite !revised_posts_map, map_map. apply map_ext.
  intros p. apply revised_post_id, revised_post_valid.
Qed.


Lemma nonempty_true (s : list N) : nonempty s = true <-> s <> [].
Proof. unfold nonempty. by rewrite negb_true_iff, bool_decide_eq_false. Qed.

Lemma filter_map_commute {A B} (f : A -> B) (P : B -> Prop)
    `{!forall b, Decision (P b)} (l : list A) :
  filter P (map f l) = map f (filter (fun a => P (f a)) l).
Proof.
  induction l as [|a l IH]; [done|]. simpl. rewrite !filter_cons, IH.
  by destruct (decide (P (f a))).
Qed.

Lemma stripped_lines_candidates text : stripped_lines text = line_candidates text.
Proof. unfold stripped_lines, line_candidates. by rewrite filter_map_commute. Qed.

Lemma line_candidates_nonempty text :
  Forall (fun p => p <> []) (line_candidates text).
Proof.
  unfold line_candidates. apply Forall_forall. intros p Hp.
  apply list_elem_of_filter in Hp as [Hp _]. by apply nonempty_true.
Qed.

Lemma split_posts_nonempty text : Forall (fun p => p <> []) (split_posts text).
Proof.
  unfold split_posts. destruct (3 <=? length (stripped_lines text)).
  - rewrite stripped_lines_candidates. apply line_candidates_nonempty.
  - apply Forall_forall. intros p Hp.
    apply list_elem_of_filter in Hp as [Hp _]. by apply nonempty_true.
Qed.

Lemma filter_nonempty_id (l : list (list N)) :
  Forall (fun p => p <> []) l -> filter (fun p => nonempty p = true) l = l.
Proof.
  intros Hl. induction Hl as [|p l Hp _ IH]; [done|].
  rewrite filter_cons, IH. destruct (decide _) as [|Hn]; [done|].
  by apply nonempty_true in Hp.
Qed.

Lemma append_until_three_spec rounds posts :
  3 - length posts <= rounds ->
  append_until_three rounds posts
  = posts ++ replicate (3 - length posts) FALLBACK_POST.
Proof.
  revert posts. induction rounds as [|rounds IH]; intros posts Hr; simpl.
  - replace (3 - length posts) with 0 by lia. by rewrite app_nil_r.
  - destruct (Nat.ltb_spec (length posts) 3) as [Hlt|Hge].
    + rewrite IH by (rewrite length_app; simpl; lia).
      rewrite length_app. simpl.
      replace (3 - length posts) with (S (3 - (length posts + 1))) by lia.
      simpl. by rewrite <- app_assoc.
    + replace (3 - length posts) with 0 by lia. by rewrite app_nil_r.
Qed.

(** The loop of [enforce_three] has left when its three rounds are over. *)
Lemma append_until_three_exits posts :
  3 <= length (append_until_three 3 posts).
Proof.
  rewrite append_until_three_spec by lia.
  rewrite length_app, length_replicate. lia.
Qed.

Lemma enforce_three_spec posts :
  let kept := filter (fun p => nonempty p = true) posts in
  enforce_three posts
  = take 3 kept ++ replicate (3 - length kept) FALLBACK_POST.
Proof.
  intros kept. unfold enforce_three. fold kept.
  destruct (Nat.ltb_spec 3 (length kept)) as [Hgt|Hle].
  - rewrite append_until_three_spec by lia. rewrite length_take.
    replace (3 - 3 `min` length kept) with 0 by lia.
    by replace (3 - length kept) with 0 by lia.
  - rewrite append_until_three_spec by lia. by rewrite take_ge by lia.
Qed.

Lemma length_enforce_three posts : length (enforce_three posts) = 3.
Proof.
  rewrite enforce_three_spec. rewrite length_app, length_take, length_replicate. lia.
Qed.

Lemma critic_posts deliverable :
  (role_critic deliverable).2 = enforce_three (split_posts deliverable).
Proof. reflexivity. Qed.

(** A pattern that [consumes] has no empty match. *)
Lemma consumes_sound s r : forall i e,
  consumes r = true -> e ∈ ends s r i -> i < e.
Proof.
  induction r; intros i e Hc; cbn [ends]; try discriminate.
  - destruct (s !! i) as [c|]; [|no_end]. destruct (f c); [|no_end].
    intros ->%list_elem_of_singleton. lia.
  - rewrite list_elem_of_In, in_flat_map. intros (m & Hm & He).
    rewrite <- list_elem_of_In in Hm, He.
    simpl in Hc. apply orb_true_iff in Hc as [Hc|Hc].
    + apply IHr1 in Hm; [|done]. apply ends_ge in He. lia.
    + apply IHr2 in He; [|done]. apply ends_ge in Hm. lia.
  - simpl in Hc. apply andb_true_iff in Hc as [Hc1 Hc2].
    rewrite elem_of_app. intros [?|?]; [by apply IHr1|by apply IHr2].
  - rewrite list_elem_of_In, in_map_iff. intros (k & <- & Hk).
    rewrite <- list_elem_of_In, elem_of_reverse, list_elem_of_In in Hk.
    apply in_seq in Hk. lia.
Qed.

(** The patterns the source splits at or deletes take at least one
    character with every match. *)
Lemma split_pattern_consumes :
  consumes NUMBERING_RE = true /\ consumes THINK_RE = true
  /\ consumes META_RE = true.
Proof. by vm_compute. Qed.

(** C7.  [split_posts] is a total function, it returns the empty list on
    the empty text, and when splitting on line breaks, trimming and
    discarding the empty lines gives three candidates or more, it returns
    exactly these: the numbering pattern is not tried. *)
Theorem split_posts_line_strategy :
  split_posts [] = []
  /\ forall text,
      stripped_lines text = line_candidates text
      /\ (3 <= length (line_candidates text) ->
          split_posts text = line_candidates text).
Proof.
  split; [by vm_compute|]. intros text.
  split; [apply stripped_lines_candidates|].
  intros Hlen. unfold split_posts. rewrite stripped_lines_candidates.
  by destruct (Nat.leb_spec 3 (length (line_candidates text))); [|lia].
Qed.

(** C1.  When the line-based split of a deliverable yields exactly three
    lines, each at most 280 characters long and each with a call to action,
    the critic answers [ok = true] with no feedback and these three lines
    as its posts. *)
Theorem role_critic_accepts deliverable a b c :
  stripped_lines deliverable = [a; b; c] ->
  length a <= 280 -> length b <= 280 -> length c <= 280 ->
  has_cta a = true -> has_cta b = true -> has_cta c = true ->
  role_critic deliverable = (true, [], [a; b; c]).
Proof.
  intros Hl Ha Hb Hc Ca Cb Cc.
  assert (split_posts deliverable = [a; b; c]) as Hs.
  { unfold split_posts. by rewrite Hl. }
  assert (enforce_three [a; b; c] = [a; b; c]) as He.
  { rewrite enforce_three_spec. rewrite filter_nonempty_id; [done|].
    rewrite <- Hs. apply split_posts_nonempty. }
  unfold role_critic. rewrite Hs, He. simpl. rewrite Ca, Cb, Cc. simpl.
  apply Nat.leb_le in Ha, Hb, Hc. by rewrite Ha, Hb, Hc.
Qed.

(** C4.  The critic normalizes before it checks: its posts are the first
    three candidates of the split, followed by as many copies of the
    fallback post as are missing, so they are always three; and its
    verdict is computed over these posts. *)
Theorem role_critic_normalizes deliverable :
  let candidates := split_posts deliverable in
  let posts := (role_critic deliverable).2 in
  posts = take 3 candidates
            ++ replicate (3 - length candidates) FALLBACK_POST
  /\ length posts = 3
  /\ (role_critic deliverable).1.1
     = forallb (fun p => length p <=? 280) posts && forallb has_cta posts.
Proof.
  intros candidates posts. unfold posts. rewrite critic_posts.
  split; [|split].
  - rewrite enforce_three_spec.
    by rewrite filter_nonempty_id by apply split_posts_nonempty.
  - apply length_enforce_three.
  - unfold role_critic. cbn [fst snd].
    by rewrite length_enforce_three, andb_true_r.
Qed.

Lemma MSG_COUNT_neq_others got : MSG_COUNT got <> MSG_LENGTH /\ MSG_COUNT got <> MSG_CTA.
Proof.
  split; intros Heq; apply (f_equal (take 2)) in Heq; vm_compute in Heq; discriminate.
Qed.

(** C10.  The count check of the critic always passes: the posts are
    three, the count message is never part of the feedback, and [ok] is the
    conjunction of the length check and the call-to-action check. *)
Theorem role_critic_count_always_ok deliverable :
  let '(ok, feedback, posts) := role_critic deliverable in
  length posts = 3
  /\ (forall got, MSG_COUNT got ∉ feedback)
  /\ ok = forallb (fun p => length p <=? 280) posts && forallb has_cta posts
  /\ feedback
     = (if forallb (fun p => length p <=? 280) posts then [] else [MSG_LENGTH])
         ++ (if forallb has_cta posts then [] else [MSG_CTA]).
Proof.
  unfold role_critic.
  set (posts := enforce_three (split_posts deliverable)).
  assert (length posts = 3) as Hlen by apply length_enforce_three.
  rewrite Hlen. simpl. split; [done|]. split; [|split].
  - intros got Hin. destruct (MSG_COUNT_neq_others got) as [H1 H2].
    destruct (forallb _ posts), (forallb has_cta posts); simpl in Hin;
      repeat (apply elem_of_cons in Hin as [Hin|Hin]; [done|]);
      by apply elem_of_nil in Hin.
  - by rewrite andb_true_r.
  - by destruct (forallb _ posts), (forallb has_cta posts).
Qed.


Lemma ensure_cta_post_chars p c :
  c ∈ ensure_cta_post p ->
  c ∈ p \/ c = ELLIPSIS \/ c ∈ SHORT_SUFFIX \/ c ∈ LONG_SUFFIX.
Proof.
  unfold ensure_cta_post. destruct (has_cta p).
  { destruct (_ <=? _); [by left|]. intros [?| ->]%trim_to_limit_chars; auto. }
  set (suffix := if search p URL_RE then SHORT_SUFFIX else LONG_SUFFIX).
  assert (c ∈ suffix -> c ∈ SHORT_SUFFIX \/ c ∈ LONG_SUFFIX) as Hs.
  { unfold suffix. destruct (search p URL_RE); auto. }
  set (p' := if 280 <? _ then _ else p).
  assert (c ∈ p' -> c ∈ p \/ c = ELLIPSIS) as Hp'.
  { unfold p'. destruct (280 <? _); [apply trim_to_limit_chars|by left]. }
  destruct (_ <=? 280).
  - intros [?|?]%elem_of_app; [|by right; right; apply Hs].
    destruct Hp'; auto.
  - intros [[?|?]%elem_of_app| ->]%trim_to_limit_chars; auto.
    destruct Hp'; auto.
Qed.

Lemma revised_post_one_line p : one_line p -> one_line (revised_post p).
Proof.
  unfold one_line. rewrite !Forall_forall. intros Hp c Hc.
  assert (forall x, x ∈ trim_to_limit p 280 -> is_linebreak x = false) as Ht.
  { intros x [?| ->]%trim_to_limit_chars; [by apply Hp|done]. }
  apply trim_to_limit_chars in Hc as [Hc| ->]; [|done].
  apply ensure_cta_post_chars in Hc as [Hc|[->|[Hc|Hc]]]; [by apply Ht|done| |].
  - revert c Hc. apply Forall_forall. by vm_compute; repeat constructor.
  - revert c Hc. apply Forall_forall. by vm_compute; repeat constructor.
Qed.

Lemma one_line_no_newline s : one_line s -> NEWLINE ∉ s.
Proof.
  unfold one_line. rewrite Forall_forall. intros Hs Hin. by apply Hs in Hin.
Qed.

(** The lines of the reviser's text are its posts, when no post holds a
    line boundary. *)
Lemma role_reviser_lines posts feedback :
  posts <> [] -> Forall one_line posts ->
  split_on NEWLINE (role_reviser posts feedback) = revised_posts posts.
Proof.
  intros Hne Hall. unfold role_reviser.
  rewrite split_on_join by (rewrite revised_posts_map; by destruct posts).
  rewrite revised_posts_map. clear Hne.
  induction Hall as [|p posts Hp _ IH]; [done|].
  simpl. rewrite IH.
  by rewrite split_on_none by by apply one_line_no_newline, revised_post_one_line.
Qed.


End GuardrailProperties.

(** The guardrail theorems on sample deliverables, with the ASCII-only
    character database. *)
Lemma split_posts_line_strategy_witness :
  @split_posts ascii_only (join [NEWLINE] good_posts) = good_posts.
Proof.
  destruct (@split_posts_line_strategy ascii_only) as [_ Hlines].
  destruct (Hlines (join [NEWLINE] good_posts)) as [_ ->].
  - by vm_compute.
  - vm_compute. lia.
Defined.

Lemma role_critic_accepts_witness :
  @role_critic ascii_only (join [NEWLINE] good_posts) = (true, [], good_posts).
Proof.
  apply (@role_critic_accepts ascii_only);
    first [by vm_compute | vm_compute; lia].
Defined.


(** ** The completion client *)

Module ClientProperties.
Import Client.

Lemma range_cons a b : (a < b)%Z -> range a b = a :: range (a + 1) b.
Proof.
  intros Hab. unfold range.
  replace (Z.to_nat (b - a)) with (S (Z.to_nat (b - (a + 1)))) by lia.
  simpl. f_equal; [lia|].
  rewrite <- seq_shift, map_map. apply map_ext. intros k. lia.
Qed.

Lemma range_nil a b : (b <= a)%Z -> range a b = [].
Proof.
  intros Hab. unfold range. by replace (Z.to_nat (b - a)) with 0 by lia.
Qed.

Section ChatProperties.
Context `{UnicodeData} `{Endpoint}.

Lemma negative_refused d : negative d = true -> accepted d = false.
Proof.
  destruct d as [q| | |]; simpl; try done.
  intros Hq%negb_true_iff. by rewrite Hq.
Qed.

Lemma sleep_accepted d w :
  accepted d = true ->
  sleep d w = Some {| sent := sent w; log := log w ++ [Sleep d] |}.
Proof. intros Hd. unfold sleep. by rewrite Hd. Qed.

Lemma posts_in_attempts_log p k : posts_in (attempts_log p (S k)) = S k.
Proof.
  unfold posts_in, attempts_log. simpl. f_equal.
  generalize 1. induction k as [|k IH]; intros a; [done|].
  simpl. by rewrite IH.
Qed.

(** The loop from attempt [a] on, with [n] further attempts allowed after
    it: [k] attempts fail before the one that ends the loop. *)
Lemma chat_loop_from p (n : nat) : forall (a : nat) w,
  waits_accepted -> 1 <= a -> Z.of_nat (a + n) = TRIES ->
  exists k,
    k <= n
    /\ sent (chat_loop p (range (Z.of_nat a) (TRIES + 1)) w).2 = sent w + S k
    /\ log (chat_loop p (range (Z.of_nat a) (TRIES + 1)) w).2
       = log w ++ Post p :: flat_map (wait_and_post p) (seq a k)
    /\ (forall j, j < k -> fails p w j)
    /\ match attempt_result p w k with
       | inr (text, d) =>
           (chat_loop p (range (Z.of_nat a) (TRIES + 1)) w).1 = Returned text d
       | inl e =>
           k = n
           /\ (chat_loop p (range (Z.of_nat a) (TRIES + 1)) w).1
              = Raised (ApiCallFailed TRIES e)
       end.
Proof.
  unfold fails, attempt_result.
  induction n as [|n IH]; intros a w Hb Ha Hn.
  - exists 0. rewrite range_cons by lia. rewrite (range_nil (_ + 1)) by lia.
    simpl. rewrite Nat.add_0_r.
    destruct (decode (net (sent w) p)) as [e|[text d]] eqn:Hd; simpl.
    + destruct (Z.ltb_spec (Z.of_nat a) TRIES); [lia|]. simpl.
      close_indices.
    + close_indices.
  - rewrite range_cons by lia. simpl.
    destruct (decode (net (sent w) p)) as [e|[text d]] eqn:Hd; simpl.
    + destruct (Z.ltb_spec (Z.of_nat a) TRIES); [|lia].
      destruct (Hb (Z.of_nat a)) as (x & Hx & Hacc); [lia|].
      rewrite Hx, (sleep_accepted x) by done.
      replace (Z.of_nat a + 1)%Z with (Z.of_nat (S a)) by lia.
      set (w2 := {| sent := _; log := _ |}).
      destruct (IH (S a) w2) as (k & Hk & Hsent & Hlog & Hfail & Hlast);
        [done|lia|lia|].
      exists (S k). split; [lia|]. split; [rewrite Hsent; simpl; lia|].
      split.
      { rewrite Hlog. simpl. unfold wait at 1. rewrite Hx. simpl.
        by rewrite <- !app_assoc. }
      split.
      * intros [|j] Hj; [rewrite Nat.add_0_r; eauto|].
        destruct (Hfail j) as [e' He']; [lia|]. exists e'.
        rewrite <- He'. simpl. do 3 f_equal. lia.
      * replace (sent w + S k) with (sent w2 + k) by (simpl; lia).
        destruct (decode (net (sent w2 + k) p)) as [e'|[text d]]; [|done].
        destruct Hlast as [-> ?]. done.
    + exists 0. rewrite Nat.add_0_r, Hd. simpl.
      close_indices.
Qed.

(** C9, amended.  With at least one configured attempt, and a backoff
    whose product with every attempt number below [TRIES] is a wait that
    [time.sleep] accepts, [chat] makes some number [k] of requests, between
    1 and [TRIES]; it waits that product after the failed attempt [a]
    before the next request; every attempt before the last one made has
    failed; when the last one succeeds the result is the sanitized
    first-choice text with the raw response, and when it fails it was
    attempt [TRIES] and the call raises the error that wraps this last
    failure.  So the call raises exactly when all [TRIES] attempts fail. *)
Theorem chat_retries p w :
  (1 <= TRIES)%Z -> waits_accepted ->
  exists k,
    1 <= k /\ (Z.of_nat k <= TRIES)%Z
    /\ sent (chat p w).2 = sent w + k
    /\ log (chat p w).2 = log w ++ attempts_log p k
    /\ posts_in (attempts_log p k) = k
    /\ (forall j, j < k - 1 -> fails p w j)
    /\ match attempt_result p w (k - 1) with
       | inr (text, d) => (chat p w).1 = Returned text d
       | inl e =>
           Z.of_nat k = TRIES /\ (chat p w).1 = Raised (ApiCallFailed TRIES e)
       end
    /\ (raises (chat p w).1 <-> forall j, j < Z.to_nat TRIES -> fails p w j)
    /\ (forall j body d raw,
          net (sent w + j) p = Response 200 body (Some d) ->
          first_choice d = Some raw ->
          attempt_result p w j = inr (sanitize raw, d)).
Proof.
  intros Ht Hb. unfold chat.
  destruct (chat_loop_from p (Z.to_nat TRIES - 1) 1 w) as
    (k & Hk & Hsent & Hlog & Hfail & Hlast); [done|lia|lia|].
  change (Z.of_nat 1) with 1%Z in *.
  exists (S k). rewrite Nat.sub_succ, Nat.sub_0_r, posts_in_attempts_log.
  split; [lia|]. split; [lia|]. split; [done|]. split; [done|].
  split; [done|]. split; [done|].
  assert (forall j body d raw,
             net (sent w + j) p = Response 200 body (Some d) ->
             first_choice d = Some raw ->
             attempt_result p w j = inr (sanitize raw, d)) as Hok.
  { intros j body d raw Hnet Hraw. unfold attempt_result, decode.
    by rewrite Hnet, Hraw. }
  destruct (attempt_result p w k) as [e|[text d]] eqn:Hres.
  - destruct Hlast as [-> Hr]. rewrite Hr. split; [split; [lia|done]|].
    split; [|done]. split; [|done]. intros _ j Hj.
    destruct (decide (j < Z.to_nat TRIES - 1)) as [|Hge]; [by apply Hfail|].
    replace j with (Z.to_nat TRIES - 1) by lia. by exists e.
  - rewrite Hlast. split; [done|]. split; [|done]. split; [done|].
    intros Hall. destruct (Hall k) as [e He]; [lia|]. congruence.
Qed.

End ChatProperties.

(** C9, as stated, fails for a configuration without attempts: [chat]
    sends nothing, raises nothing and returns [None].  It fails as well
    when [time.sleep] refuses the wait after the first failure, be it
    negative or too large: the error of [time.sleep] ends the call
    unwrapped, although the second attempt would have succeeded. *)
Lemma chat_without_attempts_returns_none :
  (@chat ascii_only (refusing 0 2) tt fresh).1
  = ReturnedNone
  /\ log (@chat ascii_only (refusing 0 2) tt fresh).2 = []
  /\ (@chat ascii_only (recovering 2 (-1)) tt fresh).1
     = Raised (BadSleep (Finite (-1)))
  /\ posts_in
       (log (@chat ascii_only (recovering 2 (-1)) tt fresh).2)
     = 1
  /\ @attempt_result ascii_only (recovering 2 (-1)) tt fresh 1
     = inr (lit "three posts", lit " three posts ")
  /\ (@chat ascii_only (recovering 2 10000000000000000000) tt fresh).1
     = Raised (BadSleep (Finite 10000000000000000000))
  /\ posts_in
       (log (@chat ascii_only (recovering 2 10000000000000000000) tt fresh).2)
     = 1.
Proof. by vm_compute. Qed.

(** The amended C9 at an endpoint that refuses every connection: three
    requests, two waits, and the error of the third attempt wrapped. *)
Lemma chat_retries_witness :
  exists k,
    1 <= k /\ (Z.of_nat k <= 3)%Z
    /\ log (@chat ascii_only (refusing 3 2) tt fresh).2
       = @attempts_log (refusing 3 2) tt k.
Proof.
  destruct (@chat_retries ascii_only (refusing 3 2) tt fresh)
    as (k & Hk1 & Hk2 & _ & Hlog & _); [simpl; lia| |].
  - intros a Ha. simpl in Ha.
    assert (a = 1 \/ a = 2)%Z as [-> | ->] by lia; by eexists.
  - exists k. by repeat split.
Defined.

End ClientProperties.

(** ** The queue processor *)

Module QueueProperties.
Import Queue.

Section RunQueueProperties.
Context `{Host}.

(** One line that does not raise either changes nothing, or adds its id,
    which was not in the set, and logs the three steps of its goal. *)
Lemma process_line_Some line P w P' w' :
  process_line line (P, w) = Some (P', w') ->
  STATE_F w' = STATE_F w
  /\ match queued_id line with
     | Some tid =>
         if bool_decide (tid ∈ P) then P' = P /\ w' = w
         else P' = {[ tid ]} ∪ P
              /\ exists goal,
                   log w' = log w ++ [Checkout goal; Pipeline goal; Commit goal]
     | None => P' = P /\ w' = w
     end.
Proof.
  unfold process_line, queued_id.
  destruct (bool_decide (strip line = [])); [by intros [= <- <-]|].
  destruct (json_loads (strip line)) as [[|g i]|]; [done| |by intros [= <- <-]].
  destruct (goal_of g) as [goal|]; [|done]. simpl.
  destruct (bool_decide (goal = [])); [by intros [= <- <-]|].
  destruct (id_of i goal) as [tid|]; [|done]. simpl.
  destruct (bool_decide (tid ∈ P)); [by intros [= <- <-]|].
  destruct (checkout_task_branch goal (outside w)) as [[branch e1]|]; [|done].
  simpl. destruct (run_pipeline goal e1) as [[[out_path log_path] e2]|]; [|done].
  simpl. destruct (commit_artifacts goal out_path log_path e2) as [e3|]; [|done].
  simpl. intros [= <- <-]. simpl. split; [done|]. split; [done|].
  exists goal. by rewrite <- !app_assoc.
Qed.

(** A line that was processed without raising is passed over once its id
    is in the set. *)
Lemma process_line_again line P w P1 w1 P2 w2 :
  process_line line (P, w) = Some (P1, w1) -> P1 ⊆ P2 ->
  process_line line (P2, w2) = Some (P2, w2).
Proof.
  unfold process_line.
  destruct (bool_decide (strip line = [])); [done|].
  destruct (json_loads (strip line)) as [[|g i]|]; [done| |done].
  destruct (goal_of g) as [goal|]; [|done]. simpl.
  destruct (bool_decide (goal = [])); [done|].
  destruct (id_of i goal) as [tid|]; [|done]. simpl.
  destruct (bool_decide_reflect (tid ∈ P)) as [Hin|Hout].
  - intros [= <- <-] Hsub. by rewrite bool_decide_eq_true_2 by by apply Hsub.
  - destruct (checkout_task_branch goal (outside w)) as [[branch e1]|]; [|done].
    simpl. destruct (run_pipeline goal e1) as [[[out_path log_path] e2]|]; [|done].
    simpl. destruct (commit_artifacts goal out_path log_path e2) as [e3|]; [|done].
    simpl. intros [= <- <-] Hsub.
    rewrite bool_decide_eq_true_2; [done|].
    apply Hsub, elem_of_union_l. by apply elem_of_singleton.
Qed.

Lemma process_line_grows line P w P' w' :
  process_line line (P, w) = Some (P', w') -> P ⊆ P'.
Proof.
  intros [_ Hline]%process_line_Some.
  destruct (queued_id line) as [tid|]; [|by destruct Hline as [-> _]].
  destruct (bool_decide (tid ∈ P)); [by destruct Hline as [-> _]|].
  destruct Hline as [-> _]. apply union_subseteq_r.
Qed.

Lemma process_lines_grows lines : forall P w P' w',
  process_lines lines (P, w) = Some (P', w') -> P ⊆ P'.
Proof.
  induction lines as [|line lines IH]; intros P w P' w'; [by intros [= <- <-]|].
  cbn [process_lines].
  destruct (process_line line (P, w)) as [[P1 w1]|] eqn:Hline; [|done].
  simpl. intros Hrest. etrans; [by eapply process_line_grows|by eapply IH].
Qed.

Lemma process_lines_again lines : forall P w P' w' P2 w2,
  process_lines lines (P, w) = Some (P', w') -> P' ⊆ P2 ->
  process_lines lines (P2, w2) = Some (P2, w2).
Proof.
  induction lines as [|line lines IH]; intros P w P' w' P2 w2 Hrun Hsub;
    [done|].
  cbn [process_lines] in Hrun |- *.
  destruct (process_line line (P, w)) as [[P1 w1]|] eqn:Hline; [|done].
  cbn [mbind option_bind] in Hrun.
  rewrite (process_line_again _ _ _ _ _ P2 w2 Hline).
  - cbn [mbind option_bind]. by eapply IH.
  - etrans; [by eapply process_lines_grows|done].
Qed.

Lemma list_to_set_sorted (X : gset key) l :
  sorted (elements X) = Some l -> list_to_set l = X.
Proof.
  intros Hl%sorted_Permutation.
  rewrite (list_to_set_perm_L l (elements X)) by done.
  apply list_to_set_elements_L.
Qed.

(** What a run of the queue that returns has done. *)
Lemma run_queue_Some lines w w1 :
  run_queue (Some lines) w = Some w1 ->
  exists st P P' w' l,
    load_state w = Some st /\ members st = Some P
    /\ process_lines lines (P, w) = Some (P', w')
    /\ sorted (elements P') = Some l
    /\ w1 = save_state {| processed_key := Members l;
                          other_keys := other_keys st |} w'.
Proof.
  unfold run_queue.
  destruct (load_state w) as [st|] eqn:Hst; [|done]. simpl.
  destruct (members st) as [P|] eqn:HP; [|done]. simpl.
  destruct (process_lines lines (P, w)) as [[P' w']|] eqn:Hlines; [|done].
  simpl. destruct (sorted (elements P')) as [l|] eqn:Hl; [|done]. simpl.
  intros [= <-]. by exists st, P, P', w', l.
Qed.

(** A run over a state file that an earlier run of the same list wrote. *)
Lemma run_queue_after lines w0 w1 w :
  run_queue (Some lines) w0 = Some w1 ->
  STATE_F w = STATE_F w1 ->
  exists st,
    STATE_F w = Holds st
    /\ run_queue (Some lines) w
       = Some {| outside := outside w; log := log w; STATE_F := Holds st |}.
Proof.
  intros (st0 & P & P' & w' & l & _ & _ & Hlines & Hl & ->)%run_queue_Some Hst.
  simpl in Hst. eexists. split; [exact Hst|].
  unfold run_queue, load_state. rewrite Hst. simpl.
  rewrite (list_to_set_sorted P' l Hl).
  rewrite (process_lines_again lines P w0 P' w' P' w Hlines) by done.
  simpl. by rewrite Hl.
Qed.

(** C8.  When the queue is run again over the same task list after a run
    that ended normally, on the state file that run wrote, it checks out no
    branch, runs no pipeline and commits nothing: the log and the outside
    world are as before, and the state it saves is the one it loaded, with
    the same processed set. *)
Theorem run_queue_rerun_is_noop lines w0 w1 w :
  run_queue (Some lines) w0 = Some w1 ->
  STATE_F w = STATE_F w1 ->
  exists w' saved,
    run_queue (Some lines) w = Some w'
    /\ outside w' = outside w /\ log w' = log w
    /\ STATE_F w' = Holds saved /\ STATE_F w = Holds saved
    /\ loaded w' = loaded w.
Proof.
  intros Hrun Hst.
  destruct (run_queue_after lines w0 w1 w Hrun Hst) as (st & Hw & ->).
  eexists _, st. split; [done|]. simpl. do 4 (split; [done|]).
  unfold loaded, load_state. simpl. by rewrite Hw.
Qed.

End RunQueueProperties.

(** The sample host runs every task list to the end. *)
Lemma plain_host_process_lines lines :
  forall acc, is_Some (@process_lines plain_host lines acc).
Proof.
  induction lines as [|line lines IH]; intros [P w]; [by eexists|].
  cbn [process_lines].
  assert (is_Some (@process_line plain_host line (P, w))) as [[P1 w1] ->].
  { unfold process_line. cbn [json_loads plain_host].
    destruct (bool_decide (strip line = [])); [by eexists|].
    cbn [goal_of id_of mbind option_bind].
    destruct (bool_decide (_ = [])); [by eexists|].
    destruct (bool_decide (_ ∈ P)); [by eexists|].
    cbn [checkout_task_branch run_pipeline commit_artifacts plain_host
         outside mbind option_bind]. by eexists. }
  apply IH.
Qed.

Lemma plain_host_run_queue lines :
  is_Some (@run_queue plain_host (Some lines) untouched).
Proof.
  unfold run_queue. cbn [load_state untouched STATE_F mbind option_bind].
  cbn [members processed_key mbind option_bind].
  destruct (plain_host_process_lines lines (list_to_set [], untouched))
    as [[P1 w1] Hlines].
  rewrite Hlines. by eexists.
Qed.

(** C8 on a list of two tasks: the second run after a first one that
    started without a state file. *)
Lemma run_queue_rerun_witness :
  exists w1 w2,
    @run_queue plain_host (Some two_tasks) untouched = Some w1
    /\ @run_queue plain_host (Some two_tasks) w1 = Some w2
    /\ log w2 = log w1 /\ loaded w2 = loaded w1.
Proof.
  destruct (plain_host_run_queue two_tasks) as [w1 Hrun].
  destruct (@run_queue_rerun_is_noop plain_host two_tasks untouched w1 w1 Hrun
              eq_refl) as (w2 & saved & Hrerun & _ & Hlog & _ & _ & Hloaded).
  by exists w1, w2.
Defined.

End QueueProperties.

(** * Further properties *)

(** ** Stripping and truncation *)

(** ** Trimming *)

Lemma lstrip_head s c s' : lstrip s = c :: s' -> isspace c = false.
Proof.
  induction s as [|x s IH]; [done|]. simpl.
  destruct (isspace x) eqn:Hx; [done|]. by intros [= <- _].
Qed.

Lemma lstrip_suffix s : lstrip s `suffix_of` s.
Proof.
  induction s as [|c s IH]; [done|]. simpl. destruct (isspace c); [|done].
  by apply suffix_cons_r.
Qed.

Lemma lstrip_snoc s c : isspace c = false -> lstrip (s ++ [c]) = lstrip s ++ [c].
Proof.
  intros Hc. induction s as [|x s IH]; simpl; [by rewrite Hc|].
  by destruct (isspace x).
Qed.

Lemma rstrip_cons c s : isspace c = false -> rstrip (c :: s) = c :: rstrip s.
Proof.
  intros Hc. unfold rstrip. by rewrite reverse_cons, lstrip_snoc, reverse_snoc.
Qed.

Lemma rstrip_prefix s : rstrip s `prefix_of` s.
Proof.
  unfold rstrip. destruct (lstrip_suffix (reverse s)) as [k Hk].
  exists (reverse k). apply (inj reverse).
  by rewrite reverse_app, !reverse_involutive.
Qed.

Lemma rstrip_last s c s' : rstrip s = s' ++ [c] -> isspace c = false.
Proof.
  unfold rstrip. intros Hs. apply (f_equal reverse) in Hs.
  rewrite reverse_involutive, reverse_snoc in Hs. by apply lstrip_head in Hs.
Qed.

Lemma strip_trimmed s : trimmed (strip s).
Proof.
  unfold strip. split.
  - intros c s' Hs. destruct (lstrip s) as [|x l] eqn:Hl; [done|].
    pose proof (lstrip_head _ _ _ Hl) as Hx.
    rewrite rstrip_cons in Hs by done. by injection Hs as <- _.
  - intros s' d. apply rstrip_last.
Qed.

Lemma trimmed_strip s : trimmed s -> strip s = s.
Proof.
  intros [Hhead Hlast]. unfold strip.
  assert (lstrip s = s) as ->.
  { destruct s as [|c s]; [done|]. simpl. by rewrite (Hhead c s). }
  destruct s as [|d s' _] using rev_ind; [done|].
  apply rstrip_snoc. by apply (Hlast s').
Qed.

Lemma strip_idem s : strip (strip s) = strip s.
Proof. apply trimmed_strip, strip_trimmed. Qed.

Lemma strip_sublist s : strip s `sublist_of` s.
Proof.
  unfold strip. destruct (rstrip_prefix (lstrip s)) as [k Hk].
  destruct (lstrip_suffix s) as [k' Hk']. trans (lstrip s).
  - rewrite Hk at 2. by apply sublist_inserts_r.
  - rewrite Hk' at 2. by apply sublist_inserts_l.
Qed.

Lemma trimmed_app a b d b' :
  trimmed a -> a <> [] -> b = b' ++ [d] -> isspace d = false -> trimmed (a ++ b).
Proof.
  intros [Hhead _] Ha -> Hd. split.
  - intros c s' Hs. destruct a as [|x a]; [done|].
    injection Hs as <- _. by apply (Hhead x a).
  - intros s' e Hs. rewrite app_assoc in Hs.
    by apply app_inj_tail in Hs as [_ <-].
Qed.

Lemma trimmed_take_snoc s k d :
  trimmed s -> isspace d = false -> trimmed (take k s ++ [d]).
Proof.
  intros [Hhead _] Hd. split.
  - intros c s' Hs. destruct k as [|k], s as [|x s]; simpl in Hs;
      try (by injection Hs as <- _).
    injection Hs as <- _. by apply (Hhead x s).
  - intros s' e Hs. by apply app_inj_tail in Hs as [_ <-].
Qed.

(** ** Truncation *)

Lemma trim_to_limit_shape text limit :
  (limit < Z.of_nat (length text))%Z ->
  exists k,
    trim_to_limit text limit = take k text ++ [ELLIPSIS]
    /\ (text <> [] -> k < length text)
    /\ ((1 <= limit)%Z -> (Z.of_nat k < limit)%Z).
Proof.
  intros Hgt.
  destruct (trim_to_limit_cases text limit) as [(i & Hi & Hsp & _ & ->)|[_ ->]];
    [lia| |].
  - exists i. split; [done|]. split; [|lia].
    intros _. by apply lookup_lt_Some in Hsp.
  - unfold slice_to. destruct (Z.ltb_spec (limit - 1) 0).
    + eexists. split; [done|]. split; [|lia].
      intros Hne. destruct text; [done|]. simpl length in *. lia.
    + eexists. split; [done|]. split; lia.
Qed.

(** X1.  [trim_to_limit] returns a text that fits unchanged, and otherwise a
    prefix of the text followed by the ellipsis: it never adds or reorders
    characters of the text.  The prefix is a proper one for a non-empty
    text, and shorter than the limit when the limit is at least 1. *)
Theorem trim_to_limit_keeps_prefix text limit :
  (Z.of_nat (length text) <= limit)%Z /\ trim_to_limit text limit = text
  \/ (limit < Z.of_nat (length text))%Z
     /\ exists k,
          trim_to_limit text limit = take k text ++ [ELLIPSIS]
          /\ (text <> [] -> k < length text)
          /\ ((1 <= limit)%Z -> (Z.of_nat k < limit)%Z).
Proof.
  destruct (Z.le_gt_cases (Z.of_nat (length text)) limit) as [Hle|Hgt].
  - left. split; [done|]. by apply trim_to_limit_id.
  - right. split; [lia|]. apply trim_to_limit_shape. lia.
Qed.

(** X2.  With a limit of at least 1, truncating twice is truncating once:
    what [trim_to_limit] returns already fits the limit. *)
Theorem trim_to_limit_idempotent text limit :
  (1 <= limit)%Z ->
  trim_to_limit (trim_to_limit text limit) limit = trim_to_limit text limit.
Proof.
  intros Hl. apply trim_to_limit_id.
  pose proof (trim_to_limit_fits text limit Hl). lia.
Qed.

Lemma trim_to_limit_trimmed text limit :
  trimmed text -> text <> [] ->
  trimmed (trim_to_limit text limit) /\ trim_to_limit text limit <> [].
Proof.
  intros Ht Hne.
  destruct (Z.le_gt_cases (Z.of_nat (length text)) limit) as [Hle|Hgt].
  - by rewrite trim_to_limit_id.
  - destruct (trim_to_limit_shape text limit) as (k & -> & _); [lia|].
    split; [by apply trimmed_take_snoc|by destruct (take k text)].
Qed.

Lemma trim_to_limit_idempotent_witness :
  (1 <= 8)%Z
  /\ trim_to_limit (trim_to_limit (lit "hello wide world") 8) 8
     = trim_to_limit (lit "hello wide world") 8.
Proof. split; [lia|]. apply trim_to_limit_idempotent. lia. Defined.

Section SanitizerProperties.
Context `{UnicodeData}.

(** ** The scan of [re.split] and [re.sub] *)

Lemma pieces_from_no_match s r positions start :
  (forall i, ends s r i = []) ->
  pieces_from s r positions start = [drop start s].
Proof.
  intros Hno. induction positions as [|i rest IH]; [done|].
  simpl. rewrite Hno. by destruct (start <=? i).
Qed.

Lemma concat_pieces_sublist s r positions : forall start,
  concat (pieces_from s r positions start) `sublist_of` drop start s.
Proof.
  induction positions as [|i rest IH]; intros start; simpl.
  - by rewrite app_nil_r.
  - destruct (Nat.leb_spec start i) as [Hle|]; [|apply IH].
    destruct (ends s r i) as [|e ?]; [apply IH|].
    destruct (Nat.ltb_spec i e) as [Hlt|]; [|apply IH].
    simpl. rewrite <- (take_drop (i - start) (drop start s)) at 2.
    apply sublist_app; [done|].
    rewrite drop_drop. replace (start + (i - start)) with i by lia.
    etrans; [apply IH|].
    replace e with (i + (e - i)) by lia. rewrite <- drop_drop.
    apply sublist_drop.
Qed.

Lemma delete_all_sublist s r : delete_all s r `sublist_of` s.
Proof. apply (concat_pieces_sublist s r _ 0). Qed.

Lemma delete_all_no_match s r :
  (forall i, ends s r i = []) -> delete_all s r = s.
Proof.
  intros Hno. unfold delete_all, split.
  rewrite pieces_from_no_match by done. simpl. by rewrite app_nil_r.
Qed.

Lemma flat_map_nil {A B} (f : A -> list B) l :
  (forall x, f x = []) -> flat_map f l = [].
Proof. intros Hf. induction l as [|x l IH]; [done|]. simpl. by rewrite Hf, IH. Qed.

Lemma ends_seq_nil_l s a b i :
  ends s a i = [] -> ends s (Seq a b) i = [].
Proof. intros Ha. simpl. by rewrite Ha. Qed.

Lemma ends_seq_nil_r s a b i :
  (forall k, ends s b k = []) -> ends s (Seq a b) i = [].
Proof. intros Hb. simpl. by apply flat_map_nil. Qed.

Lemma ends_chr_absent s c i : c ∉ s -> ends s (chr c) i = [].
Proof.
  intros Hc. unfold chr. simpl. destruct (s !! i) as [x|] eqn:Hx; [|done].
  destruct (N.eqb_spec c x) as [->|]; [|done].
  by apply list_elem_of_lookup_2 in Hx.
Qed.

Lemma sublist_subseteq_chars (l k : list N) : l `sublist_of` k -> l ⊆ k.
Proof.
  intros Hs x Hx. induction Hs as [|y l k Hs IH|y l k Hs IH]; [done| |].
  - apply elem_of_cons in Hx as [->|Hx]; [by left|right; by apply IH].
  - right. by apply IH.
Qed.

Lemma sanitize_sublist text : sanitize text `sublist_of` text.
Proof.
  unfold sanitize. etrans; [apply strip_sublist|].
  etrans; apply delete_all_sublist.
Qed.

(** X3.  [sanitize] only deletes: its result is a subsequence of the text,
    and it neither starts nor ends with whitespace. *)
Theorem sanitize_only_deletes text :
  sanitize text `sublist_of` text
  /\ length (sanitize text) <= length text
  /\ trimmed (sanitize text).
Proof.
  split; [apply sanitize_sublist|]. split.
  - apply sublist_length, sanitize_sublist.
  - apply strip_trimmed.
Qed.

(** A text without the characters that open a reasoning block or a role
    line is only stripped. *)
Lemma sanitize_no_markup text :
  60%N ∉ text -> 91%N ∉ text -> sanitize text = strip text.
Proof.
  intros Hlt Hbr. unfold sanitize.
  rewrite (delete_all_no_match text THINK_RE).
  2:{ intros i. unfold THINK_RE. cbn [seqs].
      by apply ends_seq_nil_l, ends_chr_absent. }
  rewrite (delete_all_no_match text META_RE); [done|].
  intros i. unfold META_RE. cbn [seqs].
  apply ends_seq_nil_r. intros j. apply ends_seq_nil_r. intros k.
  by apply ends_seq_nil_l, ends_chr_absent.
Qed.

(** X4.  A text without a less-than sign and without an opening bracket
    holds neither a reasoning block nor a role line: [sanitize] only strips
    it, and sanitizing the result again changes nothing. *)
Theorem sanitize_plain_text text :
  60%N ∉ text -> 91%N ∉ text ->
  sanitize text = strip text /\ sanitize (sanitize text) = sanitize text.
Proof.
  intros Hlt Hbr. rewrite (sanitize_no_markup text) by done.
  split; [done|]. rewrite sanitize_no_markup.
  - apply strip_idem.
  - intros Hin. apply Hlt. revert Hin. apply sublist_subseteq_chars, strip_sublist.
  - intros Hin. apply Hbr. revert Hin. apply sublist_subseteq_chars, strip_sublist.
Qed.

(** ** Lowercasing and the recognizer *)

Lemma imap_lower_ascii (s t : list N) n :
  Forall (fun c => is_ascii c = true) t ->
  concat (imap (fun k => lower_at s (n + k)) t) = map ascii_lower t.
Proof.
  intros Ht. induction Ht as [|c t Hc _ IH] in n |- *; [done|].
  simpl. rewrite <- (IH (S n)).
  assert (lower_at s (n + 0) c = [ascii_lower c]) as ->.
  { unfold lower_at, lower_full. rewrite Hc.
    by destruct (N.eqb_spec c 931) as [->|]. }
  simpl. do 2 f_equal. apply imap_ext. intros. simpl. f_equal. lia.
Qed.

Lemma lower_ascii t :
  Forall (fun c => is_ascii c = true) t -> lower t = map ascii_lower t.
Proof.
  intros Ht. unfold lower. rewrite <- (imap_lower_ascii t t 0) by done.
  f_equal.
Qed.

Lemma lower_middle_ascii a t b :
  Forall (fun c => is_ascii c = true) t ->
  exists x y, lower (a ++ t ++ b) = x ++ map ascii_lower t ++ y.
Proof.
  intros Ht. unfold lower. rewrite !imap_app, !concat_app.
  eexists _, _. f_equal. f_equal.
  rewrite <- (imap_lower_ascii (a ++ t ++ b) t (length a)) by done.
  f_equal.
Qed.

Lemma starts_with_app n t y : starts_with n t = true -> starts_with n (t ++ y) = true.
Proof.
  revert t. induction n as [|a n IH]; intros [|b t]; simpl; try done.
  intros [-> Hn]%andb_true_iff. by rewrite IH.
Qed.

Lemma contains_cons n b s :
  contains n (b :: s) = starts_with n (b :: s) || contains n s.
Proof. reflexivity. Qed.

Lemma contains_app_l n t y : contains n t = true -> contains n (t ++ y) = true.
Proof.
  induction t as [|b t IH].
  - simpl. rewrite orb_false_r. intros Hn. destruct n; [|done]. by destruct y.
  - rewrite <- app_comm_cons, !contains_cons. intros [Hs|Hc]%orb_true_iff.
    + by rewrite (app_comm_cons t y b), (starts_with_app n (b :: t) y Hs).
    + rewrite IH by done. apply orb_true_r.
Qed.

Lemma ascii_lower_ascii c : is_ascii (ascii_lower c) = true -> is_ascii c = true.
Proof.
  unfold ascii_lower, ascii_isupper, is_ascii.
  destruct ((65 <=? c)%N && (c <=? 90)%N) eqn:Hu; [|done].
  intros _. apply andb_true_iff in Hu as [_ Hu%N.leb_le]. apply N.ltb_lt. lia.
Qed.

Lemma ascii_lower_idem c : ascii_lower (ascii_lower c) = ascii_lower c.
Proof.
  unfold ascii_lower, ascii_isupper.
  destruct ((65 <=? c)%N && (c <=? 90)%N) eqn:Hu; [|by rewrite Hu].
  apply andb_true_iff in Hu as [Hl%N.leb_le Hu%N.leb_le].
  destruct (N.leb_spec (c + 32) 90); [lia|]. by rewrite andb_false_r.
Qed.

Lemma ascii_lower_is_ascii c : is_ascii c = true -> is_ascii (ascii_lower c) = true.
Proof.
  unfold ascii_lower, ascii_isupper, is_ascii. intros Hc.
  destruct ((65 <=? c)%N && (c <=? 90)%N) eqn:Hu; [|done].
  apply andb_true_iff in Hu as [_ Hu%N.leb_le]. apply N.ltb_lt. lia.
Qed.

(** X5.  On ASCII text the recognizer ignores the case of letters. *)
Theorem has_cta_ascii_case p q :
  Forall (fun c => is_ascii c = true) p ->
  Forall (fun c => is_ascii c = true) q ->
  map ascii_lower p = map ascii_lower q ->
  has_cta p = has_cta q.
Proof.
  intros Hp Hq Heq. unfold has_cta. by rewrite !lower_ascii, Heq.
Qed.

(** X6.  A post that holds the join link, in any letter case and anywhere,
    has a call to action. *)
Theorem has_cta_link a t b :
  map ascii_lower t = lit "trieboldinstitute.org/join" ->
  has_cta (a ++ t ++ b) = true.
Proof.
  intros Ht. unfold has_cta.
  destruct (lower_middle_ascii a t b) as (x & y & ->).
  - apply Forall_forall. intros c Hc. apply ascii_lower_ascii.
    assert (ascii_lower c ∈ map ascii_lower t) as Hin.
    { apply list_elem_of_In, in_map, list_elem_of_In, Hc. }
    rewrite Ht in Hin. revert Hin. generalize (ascii_lower c).
    apply Forall_forall. by vm_compute; repeat constructor.
  - rewrite Ht. rewrite contains_app_r; [done|]. apply contains_app_l. by vm_compute.
Qed.
End SanitizerProperties.

Lemma sanitize_plain_text_witness :
  @sanitize ascii_only (lit "  three posts ") = lit "three posts"
  /\ @sanitize ascii_only (@sanitize ascii_only (lit "  three posts "))
     = @sanitize ascii_only (lit "  three posts ").
Proof.
  destruct (@sanitize_plain_text ascii_only (lit "  three posts ")) as [-> ->];
    [apply (bool_decide_unpack _); by vm_compute
    |apply (bool_decide_unpack _); by vm_compute|].
  by vm_compute.
Defined.

Lemma has_cta_ascii_case_witness :
  @has_cta ascii_only (lit "SUBSCRIBE now")
  = @has_cta ascii_only (lit "subscribe NOW").
Proof.
  apply (@has_cta_ascii_case ascii_only);
    [by vm_compute; repeat constructor
    |by vm_compute; repeat constructor|reflexivity].
Defined.

Lemma has_cta_link_witness :
  @has_cta ascii_only
    (lit "Visit " ++ lit "TrieboldInstitute.org/JOIN" ++ lit " today") = true.
Proof. apply (@has_cta_link ascii_only). reflexivity. Defined.

Lemma strip_subseteq s : strip s ⊆ s.
Proof. unfold strip. etrans; [apply rstrip_subseteq|apply lstrip_subseteq]. Qed.

Lemma strip_one_line s : one_line s -> one_line (strip s).
Proof.
  unfold one_line. rewrite !Forall_forall. intros Hs c Hc.
  by apply Hs, strip_subseteq.
Qed.

(** ** Lines *)

Lemma splitlines_from_lines n : forall s cur,
  length s <= n -> one_line cur -> Forall one_line (splitlines_from cur s).
Proof.
  assert (forall cur, one_line cur -> one_line (reverse cur)) as Hrev.
  { intros cur Hcur. unfold one_line. apply Forall_forall. intros c Hc.
    rewrite elem_of_reverse in Hc. revert c Hc. by apply Forall_forall. }
  assert (one_line []) as Hnil by constructor.
  induction n as [|n IH]; intros s cur Hn Hcur.
  - destruct s; [|simpl in Hn; lia]. simpl.
    destruct cur; [done|]. apply Forall_singleton. by apply Hrev.
  - destruct s as [|c s].
    { simpl. destruct cur; [done|]. apply Forall_singleton. by apply Hrev. }
    simpl in Hn. simpl. destruct (is_linebreak c) eqn:Hc.
    + constructor; [by apply Hrev|].
      destruct (c =? CR)%N; [|apply IH; [lia|done]].
      destruct s as [|d s]; [apply IH; [simpl; lia|done]|].
      destruct (d =? NEWLINE)%N; apply IH; simpl in *; try lia; done.
    + apply IH; [lia|]. by constructor.
Qed.

Lemma splitlines_one_line s : Forall one_line (splitlines s).
Proof. apply (splitlines_from_lines (length s)); [done|constructor]. Qed.

Lemma splitlines_from_last x : forall cur,
  one_line x -> reverse cur ++ x <> [] ->
  splitlines_from cur x = [reverse cur ++ x].
Proof.
  induction x as [|c x IH]; intros cur Hx Hne; simpl.
  - rewrite app_nil_r in *. by destruct cur.
  - inversion Hx as [|? ? Hc Hx']; subst. rewrite Hc.
    rewrite IH; [|done|]; rewrite reverse_cons, <- app_assoc; [done|].
    by destruct (reverse cur).
Qed.

Lemma splitlines_from_line x rest : forall cur,
  one_line x ->
  splitlines_from cur (x ++ NEWLINE :: rest)
  = (reverse cur ++ x) :: splitlines_from [] rest.
Proof.
  induction x as [|c x IH]; intros cur Hx; simpl.
  - by rewrite app_nil_r.
  - inversion Hx as [|? ? Hc Hx']; subst. rewrite Hc.
    rewrite IH by done. by rewrite reverse_cons, <- app_assoc.
Qed.

Lemma splitlines_join l :
  Forall (fun x => one_line x /\ x <> []) l ->
  splitlines (join [NEWLINE] l) = l.
Proof.
  intros Hl. induction Hl as [|x l [Hx Hne] Hl IH]; [done|].
  destruct l as [|y l].
  - simpl. unfold splitlines. by rewrite splitlines_from_last.
  - change (join [NEWLINE] (x :: y :: l)) with (x ++ NEWLINE :: join [NEWLINE] (y :: l)).
    unfold splitlines. rewrite splitlines_from_line by done.
    f_equal. apply IH.
Qed.

Section SplitterProperties.
Context `{UnicodeData}.

(** ** The splitter *)

Lemma stripped_lines_join l :
  Forall (fun x => one_line x /\ x <> [] /\ trimmed x) l ->
  stripped_lines (join [NEWLINE] l) = l.
Proof.
  intros Hl. unfold stripped_lines. rewrite splitlines_join.
  2:{ eapply Forall_impl; [done|]. by intros ? (? & ? & ?). }
  induction Hl as [|x l (Hx & Hne & Ht) Hl IH]; [done|].
  rewrite filter_cons, (trimmed_strip x) by done.
  destruct (decide _) as [|Hn]; [|by apply nonempty_true in Hne].
  simpl. by rewrite (trimmed_strip x), IH.
Qed.

Lemma line_candidates_shape text :
  Forall (fun p => one_line p /\ p <> [] /\ trimmed p) (line_candidates text).
Proof.
  unfold line_candidates. apply Forall_forall. intros p Hp.
  apply list_elem_of_filter in Hp as [Hne Hp].
  apply list_elem_of_In, in_map_iff in Hp as (raw & <- & Hln).
  split; [|split; [by apply nonempty_true|apply strip_trimmed]].
  apply strip_one_line. apply list_elem_of_In in Hln. clear Hne. revert raw Hln.
  apply Forall_forall, splitlines_one_line.
Qed.

Lemma split_posts_shape text :
  Forall (fun p => p <> [] /\ trimmed p) (split_posts text).
Proof.
  unfold split_posts. destruct (3 <=? length (stripped_lines text)).
  - rewrite stripped_lines_candidates.
    eapply Forall_impl; [apply line_candidates_shape|]. by intros ? (? & ? & ?).
  - apply Forall_forall. intros p Hp.
    apply list_elem_of_filter in Hp as [Hne Hp].
    apply list_elem_of_In, in_map_iff in Hp as (raw & <- & Hln).
    split; [by apply nonempty_true|apply strip_trimmed].
Qed.

(** X7.  Every post [split_posts] returns is non-empty and neither starts
    nor ends with whitespace; the posts of the line strategy hold no line
    boundary, and those of the numbering strategy are never all digits. *)
Theorem split_posts_posts text :
  Forall (fun p => p <> [] /\ trimmed p) (split_posts text)
  /\ (3 <= length (line_candidates text) ->
      Forall one_line (split_posts text))
  /\ (length (line_candidates text) < 3 ->
      Forall (fun p => isdigit p = false) (split_posts text)).
Proof.
  split; [apply split_posts_shape|]. split.
  - intros Hlen. unfold split_posts. rewrite stripped_lines_candidates.
    destruct (Nat.leb_spec 3 (length (line_candidates text))); [|lia].
    eapply Forall_impl; [apply line_candidates_shape|]. by intros ? (? & ? & ?).
  - intros Hlen. unfold split_posts. rewrite stripped_lines_candidates.
    destruct (Nat.leb_spec 3 (length (line_candidates text))); [lia|].
    apply Forall_forall. intros p Hp.
    apply list_elem_of_filter in Hp as [_ Hp].
    apply list_elem_of_In, in_map_iff in Hp as (s & <- & Hs).
    apply list_elem_of_In, list_elem_of_filter in Hs as [Hs _].
    apply andb_true_iff in Hs as [_ Hs]. by apply negb_true_iff in Hs.
Qed.

Lemma run_none f (s : list N) k :
  Forall (fun c => f c = false) s -> run f (drop k s) = 0.
Proof.
  intros Hs. assert (Forall (fun c => f c = false) (drop k s)) as Hd.
  { apply Forall_forall. intros c Hc. revert c Hc. apply Forall_forall.
    eapply Forall_drop in Hs. exact Hs. }
  destruct Hd as [|c ? Hc]; [done|]. simpl. by rewrite Hc.
Qed.

Lemma numbering_needs_digit text i :
  Forall (fun c => isdecimal c = false) text ->
  ends text NUMBERING_RE i = [].
Proof.
  intros Hno.
  assert (forall k, ends text numbered_item k = []) as Hitem.
  { intros k. unfold numbered_item. cbn [seqs].
    apply ends_seq_nil_r. intros j. apply ends_seq_nil_l.
    cbn [ends]. by rewrite run_none. }
  unfold NUMBERING_RE. cbn [ends].
  by rewrite !flat_map_nil.
Qed.

(** X8.  A text without decimal digits that has fewer than three non-empty
    lines is not split at all: the whole stripped text is the only post,
    line breaks included, and there is no post when nothing is left of it
    or when it is all digits. *)
Theorem split_posts_unnumbered text :
  Forall (fun c => isdecimal c = false) text ->
  length (line_candidates text) < 3 ->
  split_posts text
  = if nonempty (strip text) && negb (isdigit (strip text))
    then [strip text] else [].
Proof.
  intros Hno Hlen. unfold split_posts. rewrite stripped_lines_candidates.
  destruct (Nat.leb_spec 3 (length (line_candidates text))); [lia|].
  unfold split. rewrite pieces_from_no_match
    by (intros i; by apply numbering_needs_digit).
  rewrite drop_0.
  assert (nonempty (strip text) = true -> nonempty text = true) as Hne.
  { intros Hs. apply nonempty_true. intros ->. by vm_compute in Hs. }
  rewrite filter_cons, filter_nil. case_decide as Hkeep.
  - apply andb_true_iff in Hkeep as [_ Hd]. rewrite Hd, andb_true_r.
    cbn [map]. rewrite filter_cons, filter_nil.
    case_decide as Hs; [by rewrite Hs|].
    by apply not_true_is_false in Hs as ->.
  - cbn [map]. rewrite filter_nil.
    destruct (nonempty (strip text)) eqn:Hs; [|done].
    rewrite Hne in Hkeep by done.
    by destruct (isdigit (strip text)).
Qed.
End SplitterProperties.

Lemma split_posts_unnumbered_witness :
  @split_posts ascii_only (lit " no digits here ") = [lit "no digits here"].
Proof.
  rewrite (@split_posts_unnumbered ascii_only);
    [done|by vm_compute; repeat constructor|vm_compute; lia].
Defined.

Section CriticProperties.
Context `{UnicodeData}.

(** ** Normalization *)

Lemma FALLBACK_POST_shape :
  FALLBACK_POST <> [] /\ trimmed FALLBACK_POST /\ one_line FALLBACK_POST
  /\ valid_post FALLBACK_POST.
Proof.
  split; [done|]. split; [|split; [|split]].
  - assert (strip FALLBACK_POST = FALLBACK_POST) as Hs by reflexivity.
    rewrite <- Hs. apply strip_trimmed.
  - by vm_compute; repeat constructor.
  - vm_compute. lia.
  - unfold has_cta. rewrite lower_ascii by (by vm_compute; repeat constructor).
    by vm_compute.
Qed.

Lemma enforce_three_from P posts :
  P FALLBACK_POST ->
  Forall P (filter (fun p => nonempty p = true) posts) ->
  Forall P (enforce_three posts).
Proof.
  intros Hf Hk. rewrite enforce_three_spec. apply Forall_app. split.
  - by apply Forall_take.
  - by apply Forall_replicate.
Qed.

Lemma enforce_three_nonempty posts : Forall (fun p => p <> []) (enforce_three posts).
Proof.
  apply enforce_three_from; [done|].
  apply Forall_forall. intros p Hp.
  apply list_elem_of_filter in Hp as [Hp _]. by apply nonempty_true.
Qed.

(** X9.  [enforce_three] always returns three non-empty posts, and applying
    it again changes nothing. *)
Theorem enforce_three_normal posts :
  length (enforce_three posts) = 3
  /\ Forall (fun p => p <> []) (enforce_three posts)
  /\ enforce_three (enforce_three posts) = enforce_three posts.
Proof.
  split; [apply length_enforce_three|]. split; [apply enforce_three_nonempty|].
  rewrite (enforce_three_spec (enforce_three posts)). cbn zeta.
  rewrite filter_nonempty_id by apply enforce_three_nonempty.
  rewrite length_enforce_three. simpl. rewrite app_nil_r.
  apply take_ge. by rewrite length_enforce_three.
Qed.

(** ** The critic *)

Lemma forallb_valid posts :
  forallb (fun p => length p <=? 280) posts && forallb has_cta posts = true
  <-> Forall valid_post posts.
Proof.
  rewrite andb_true_iff, !forallb_forall, Forall_forall. unfold valid_post.
  setoid_rewrite <- list_elem_of_In. split.
  - intros [Hl Hc] p Hp. split; [by apply Nat.leb_le, Hl|by apply Hc].
  - intros Hv. split; intros p Hp; destruct (Hv p Hp); [by apply Nat.leb_le|done].
Qed.

Lemma role_critic_eq deliverable :
  let posts := enforce_three (split_posts deliverable) in
  let ok_len := forallb (fun p => length p <=? 280) posts in
  let ok_cta := forallb has_cta posts in
  role_critic deliverable
  = (ok_len && ok_cta,
     (if ok_len then [] else [MSG_LENGTH]) ++ (if ok_cta then [] else [MSG_CTA]),
     posts).
Proof.
  intros posts ok_len ok_cta. unfold role_critic. fold posts. fold ok_len ok_cta.
  assert (length posts = 3) as -> by apply length_enforce_three.
  simpl. rewrite andb_true_r. by destruct ok_len, ok_cta.
Qed.

(** X10.  The critic's verdict is [ok] exactly when its feedback is empty,
    and exactly when each of its three posts fits 280 characters and has a
    call to action. *)
Theorem role_critic_ok_iff deliverable :
  let '(ok, feedback, posts) := role_critic deliverable in
  (ok = true <-> feedback = [])
  /\ (ok = true <-> Forall valid_post posts).
Proof.
  rewrite role_critic_eq. cbn zeta. split; [|apply forallb_valid].
  by destruct (forallb _ _), (forallb has_cta _).
Qed.

Lemma role_critic_valid deliverable :
  Forall valid_post (enforce_three (split_posts deliverable)) ->
  role_critic deliverable = (true, [], enforce_three (split_posts deliverable)).
Proof.
  intros Hv. rewrite role_critic_eq. cbn zeta.
  apply forallb_valid, andb_true_iff in Hv as [-> ->]. done.
Qed.

(** X11.  The fallback posts never count against a deliverable: the verdict
    is [ok] exactly when the first three candidates of the split, however
    few, are valid.  An empty deliverable therefore passes, and the
    pipeline keeps it as it is. *)
Theorem role_critic_padding deliverable :
  ((role_critic deliverable).1.1 = true
   <-> Forall valid_post (take 3 (split_posts deliverable)))
  /\ role_critic [] = (true, [], replicate 3 FALLBACK_POST)
  /\ guarded [] = [].
Proof.
  assert (role_critic [] = (true, [], replicate 3 FALLBACK_POST)) as Hempty.
  { rewrite role_critic_valid.
    - by vm_compute.
    - apply enforce_three_from; [apply FALLBACK_POST_shape|].
      assert (split_posts [] = []) as -> by by vm_compute. constructor. }
  split; [|split; [done|]].
  - rewrite role_critic_eq. cbn [fst]. rewrite forallb_valid.
    rewrite enforce_three_spec. cbn zeta.
    rewrite filter_nonempty_id by apply split_posts_nonempty.
    rewrite Forall_app. split; [by intros [? _]|].
    intros Hv. split; [done|]. apply Forall_replicate, FALLBACK_POST_shape.
  - unfold guarded. by rewrite Hempty.
Qed.

(** ** The reviser *)

Lemma revised_posts_all_valid posts : Forall valid_post (revised_posts posts).
Proof.
  rewrite revised_posts_map.
  induction posts as [|p posts IH]; constructor; [apply revised_post_valid|done].
Qed.

Lemma length_revised_posts posts : length (revised_posts posts) = length posts.
Proof. by rewrite revised_posts_map, length_map. Qed.

(** X12.  Whatever posts it is given, the reviser emits as many posts, each
    within 280 characters and with a call to action; posts that meet both
    rules already come back unchanged. *)
Theorem revised_posts_valid posts :
  Forall valid_post (revised_posts posts)
  /\ length (revised_posts posts) = length posts
  /\ (Forall valid_post posts -> revised_posts posts = posts).
Proof.
  split; [apply revised_posts_all_valid|]. split; [apply length_revised_posts|].
  intros Hv. rewrite revised_posts_map.
  induction Hv as [|p posts Hp _ IH]; [done|].
  simpl. by rewrite revised_post_id, IH.
Qed.

Lemma suffix_last suffix :
  suffix = SHORT_SUFFIX \/ suffix = LONG_SUFFIX ->
  exists b d, suffix = b ++ [d] /\ isspace d = false.
Proof.
  intros [->| ->].
  - exists (take 24 SHORT_SUFFIX), 46%N. by vm_compute.
  - exists (take 59 LONG_SUFFIX), 110%N. by vm_compute.
Qed.

Lemma ensure_cta_post_trimmed p :
  trimmed p -> p <> [] ->
  trimmed (ensure_cta_post p) /\ ensure_cta_post p <> [].
Proof.
  intros Ht Hne. unfold ensure_cta_post. destruct (has_cta p).
  { destruct (_ <=? _); [done|by apply trim_to_limit_trimmed]. }
  set (suffix := if search p URL_RE then SHORT_SUFFIX else LONG_SUFFIX).
  destruct (suffix_last suffix) as (b & d & Hs & Hd).
  { unfold suffix. destruct (search p URL_RE); auto. }
  set (p' := if 280 <? _ then _ else p).
  assert (trimmed p' /\ p' <> []) as [Ht' Hne'].
  { unfold p'. destruct (280 <? _); [by apply trim_to_limit_trimmed|done]. }
  assert (trimmed (p' ++ suffix) /\ p' ++ suffix <> []) as [Hts Hnes].
  { split; [by eapply trimmed_app|by destruct p']. }
  destruct (_ <=? 280); [done|by apply trim_to_limit_trimmed].
Qed.

Lemma revised_post_trimmed p :
  trimmed p -> p <> [] -> trimmed (revised_post p) /\ revised_post p <> [].
Proof.
  intros Ht Hne. rewrite revised_post_eq.
  destruct (trim_to_limit_trimmed p 280 Ht Hne).
  by apply ensure_cta_post_trimmed.
Qed.

Lemma critic_posts_shape deliverable :
  Forall (fun p => p <> [] /\ trimmed p) (enforce_three (split_posts deliverable)).
Proof.
  apply enforce_three_from.
  - split; apply FALLBACK_POST_shape.
  - rewrite filter_nonempty_id by apply split_posts_nonempty.
    apply split_posts_shape.
Qed.

Lemma critic_posts_one_line deliverable :
  3 <= length (line_candidates deliverable) ->
  Forall one_line (enforce_three (split_posts deliverable)).
Proof.
  intros Hlen. apply enforce_three_from; [apply FALLBACK_POST_shape|].
  rewrite filter_nonempty_id by apply split_posts_nonempty.
  unfold split_posts. rewrite stripped_lines_candidates.
  destruct (Nat.leb_spec 3 (length (line_candidates deliverable))); [|lia].
  eapply Forall_impl; [apply line_candidates_shape|]. by intros ? (? & ? & ?).
Qed.

Lemma role_critic_of_lines l :
  length l = 3 ->
  Forall (fun x => one_line x /\ x <> [] /\ trimmed x) l ->
  Forall valid_post l ->
  role_critic (join [NEWLINE] l) = (true, [], l).
Proof.
  intros Hlen Hl Hv.
  assert (split_posts (join [NEWLINE] l) = l) as Hs.
  { unfold split_posts. rewrite stripped_lines_join by done.
    by rewrite Hlen. }
  assert (enforce_three l = l) as He.
  { rewrite enforce_three_spec. cbn zeta. rewrite filter_nonempty_id.
    - rewrite Hlen. simpl. rewrite app_nil_r. apply take_ge. lia.
    - eapply Forall_impl; [exact Hl|]. by intros ? (? & ? & ?). }
  rewrite role_critic_valid; rewrite Hs, He; done.
Qed.

(** X13.  The guardrail closes: when the critic's posts hold no line
    boundary, as they do whenever the worker's output has three non-empty
    lines or more, the text that leaves the critic and reviser steps passes
    the critic, its posts being the accepted ones or the revised ones. *)
Theorem guarded_passes_critic work :
  3 <= length (line_candidates work) \/ Forall one_line (role_critic work).2 ->
  role_critic (guarded work)
  = (true, [],
     if (role_critic work).1.1 then (role_critic work).2
     else revised_posts (role_critic work).2).
Proof.
  intros Hlines.
  assert (Forall one_line (enforce_three (split_posts work))) as Hone.
  { destruct Hlines as [Hlen|Hone]; [by apply critic_posts_one_line|done]. }
  clear Hlines. pose proof (role_critic_eq work) as Hc. cbn zeta in Hc.
  set (posts := enforce_three (split_posts work)) in *.
  unfold guarded. rewrite Hc. cbn [fst snd].
  destruct (forallb (fun p => length p <=? 280) posts && forallb has_cta posts)
    eqn:Hok; cbn [negb].
  - rewrite role_critic_valid; fold posts; [done|]. by apply forallb_valid.
  - unfold role_reviser. apply role_critic_of_lines.
    + rewrite length_revised_posts. apply length_enforce_three.
    + rewrite revised_posts_map. apply Forall_forall. intros q Hq.
      apply list_elem_of_In, in_map_iff in Hq as (p & <- & Hp).
      apply list_elem_of_In in Hp.
      pose proof (critic_posts_shape work) as Hshape. fold posts in Hshape.
      rewrite Forall_forall in Hshape, Hone.
      destruct (Hshape p Hp) as [Hne Ht].
      destruct (revised_post_trimmed p Ht Hne).
      split; [by apply revised_post_one_line, Hone|done].
    + apply revised_posts_all_valid.
Qed.
(** The posts [split_posts] finds in the reviser's text are the revised
    posts, when there are three or more of them and each post is one
    trimmed, non-empty line. *)
Lemma split_posts_role_reviser posts feedback :
  3 <= length posts ->
  Forall (fun p => one_line p /\ p <> [] /\ trimmed p) posts ->
  split_posts (role_reviser posts feedback) = revised_posts posts.
Proof.
  intros Hlen Hall. unfold role_reviser, split_posts.
  rewrite stripped_lines_join.
  - rewrite length_revised_posts.
    by destruct (Nat.leb_spec 3 (length posts)); [|lia].
  - rewrite revised_posts_map. apply Forall_forall. intros q Hq.
    apply list_elem_of_In, in_map_iff in Hq as (p & <- & Hp).
    apply list_elem_of_In in Hp. rewrite Forall_forall in Hall.
    destruct (Hall p Hp) as (Hone & Hne & Ht).
    destruct (revised_post_trimmed p Ht Hne).
    split; [by apply revised_post_one_line|done].
Qed.

(** C2, amended.  The reviser is idempotent on posts without line
    boundary: for a list of posts that is not empty and none of which
    holds a line boundary, the reviser run again on the lines of its own
    text returns the same text, whatever the feedback; the same holds for
    the posts [split_posts] finds in that text, when there were three posts
    or more, each non-empty and without leading or trailing whitespace; and
    three posts that each fit 280 characters and carry a call to action
    come back as they are, joined by single line feeds. *)
Theorem role_reviser_idempotent :
  (forall posts feedback feedback',
      posts <> [] -> Forall one_line posts ->
      role_reviser (split_on NEWLINE (role_reviser posts feedback)) feedback'
      = role_reviser posts feedback)
  /\ (forall posts feedback feedback',
         3 <= length posts ->
         Forall (fun p => one_line p /\ p <> [] /\ trimmed p) posts ->
         role_reviser (split_posts (role_reviser posts feedback)) feedback'
         = role_reviser posts feedback)
  /\ (forall a b c feedback,
         length a <= 280 -> has_cta a = true ->
         length b <= 280 -> has_cta b = true ->
         length c <= 280 -> has_cta c = true ->
         role_reviser [a; b; c] feedback = a ++ [NEWLINE] ++ b ++ [NEWLINE] ++ c).
Proof.
  split; [|split].
  - intros posts fb fb' Hne Hall. rewrite role_reviser_lines by done.
    unfold role_reviser. by rewrite revised_posts_idem.
  - intros posts fb fb' Hlen Hall. rewrite split_posts_role_reviser by done.
    unfold role_reviser. by rewrite revised_posts_idem.
  - intros a b c fb ? ? ? ? ? ?. unfold role_reviser. rewrite revised_posts_map.
    simpl. by rewrite !revised_post_id.
Qed.

End CriticProperties.

Lemma role_reviser_idempotent_witness :
  @role_reviser ascii_only
    (split_on NEWLINE (@role_reviser ascii_only good_posts [])) []
  = @role_reviser ascii_only good_posts []
  /\ @role_reviser ascii_only good_posts [] = join [NEWLINE] good_posts.
Proof.
  destruct (@role_reviser_idempotent ascii_only) as (Hlines & _ & Hvalid).
  split.
  - apply Hlines; [done|]. by vm_compute; repeat constructor.
  - apply Hvalid; first [by vm_compute | vm_compute; lia].
Defined.

(** C2, as stated, fails for posts that hold a line feed and for the empty
    list: the reviser's text then has more lines than there were posts,
    each of which gets a call to action of its own when the text is split
    and revised again.  With [split_posts] it fails as well for a single
    numbered post, whose number is split off, and for a post that starts
    with whitespace or is empty, which comes back stripped. *)
Lemma role_reviser_not_idempotent :
  @role_reviser ascii_only
    (split_on NEWLINE (@role_reviser ascii_only broken_posts [])) []
  <> @role_reviser ascii_only broken_posts []
  /\ @role_reviser ascii_only
       (@split_posts ascii_only (@role_reviser ascii_only broken_posts [])) []
     <> @role_reviser ascii_only broken_posts []
  /\ @role_reviser ascii_only
       (split_on NEWLINE (@role_reviser ascii_only [] [])) []
     <> @role_reviser ascii_only [] []
  /\ @role_reviser ascii_only
       (@split_posts ascii_only (@role_reviser ascii_only [lit "1. x"] [])) []
     <> @role_reviser ascii_only [lit "1. x"] []
  /\ @role_reviser ascii_only
       (@split_posts ascii_only
          (@role_reviser ascii_only [lit " a"; lit "b"; lit "c"] [])) []
     <> @role_reviser ascii_only [lit " a"; lit "b"; lit "c"] []
  /\ @role_reviser ascii_only
       (@split_posts ascii_only
          (@role_reviser ascii_only [[]; lit "b"; lit "c"] [])) []
     <> @role_reviser ascii_only [[]; lit "b"; lit "c"] [].
Proof. repeat split; vm_compute; discriminate. Qed.

Lemma guarded_passes_critic_witness :
  3 <= length (line_candidates long_work)
  /\ (@role_critic ascii_only (@guarded ascii_only long_work)).1
     = (true, []).
Proof.
  assert (3 <= length (line_candidates long_work)) as Hlen
    by (vm_compute; lia).
  split; [exact Hlen|].
  by rewrite (@guarded_passes_critic ascii_only long_work) by by left.
Defined.

Section CallToActionProperties.
Context `{UnicodeData}.

(** ** The call to action *)

Lemma ensure_cta_post_bounds p :
  length (ensure_cta_post p) <= 280
  /\ (has_cta p = false \/ length p <= 280 ->
      has_cta (ensure_cta_post p) = true).
Proof.
  unfold ensure_cta_post. destruct (has_cta p) eqn:Hcta.
  { destruct (Nat.leb_spec (length p) 280).
    - split; [done|]. by intros _.
    - split; [apply trim_280_length|]. intros [?|?]; [done|lia]. }
  set (suffix := if search p URL_RE then SHORT_SUFFIX else LONG_SUFFIX).
  assert (suffix = SHORT_SUFFIX \/ suffix = LONG_SUFFIX) as Hs.
  { unfold suffix. destruct (search p URL_RE); auto. }
  assert (length suffix = 25 \/ length suffix = 60) as Hl.
  { destruct Hs as [->| ->]; auto. }
  set (p' := if 280 <? length p + length suffix
             then trim_to_limit p (280 - Z.of_nat (length suffix)) else p).
  assert (length p' + length suffix <= 280) as Hfit.
  { unfold p'. destruct (Nat.ltb_spec 280 (length p + length suffix)); [|lia].
    pose proof (trim_to_limit_fits p (280 - Z.of_nat (length suffix))). lia. }
  destruct (Nat.leb_spec (length p' + length suffix) 280); [|lia].
  split; [by rewrite length_app|]. intros _. by apply has_cta_suffixed.
Qed.

(** X14.  [ensure_cta] returns as many posts as it is given, none longer
    than 280 characters, each made from the post at the same position.
    Every post that had no call to action, or that was within 280
    characters, has one afterwards, whatever the other posts of the list
    are; a post that already has one within 280 characters comes back
    unchanged, and so does a list of such posts. *)
Theorem ensure_cta_bounds posts :
  length (ensure_cta posts) = length posts
  /\ Forall (fun q => length q <= 280) (ensure_cta posts)
  /\ (forall i p,
        posts !! i = Some p ->
        exists q,
          ensure_cta posts !! i = Some q
          /\ length q <= 280
          /\ (has_cta p = false \/ length p <= 280 -> has_cta q = true)
          /\ (valid_post p -> q = p))
  /\ (Forall (fun p => has_cta p = false \/ length p <= 280) posts ->
      Forall valid_post (ensure_cta posts))
  /\ (Forall valid_post posts -> ensure_cta posts = posts).
Proof.
  unfold ensure_cta. split; [by rewrite length_map|].
  split; [|split; [|split]].
  - apply Forall_forall. intros q Hq.
    apply list_elem_of_In, in_map_iff in Hq as (p & <- & _).
    apply ensure_cta_post_bounds.
  - intros i p Hp. exists (ensure_cta_post p).
    split; [by rewrite list_lookup_fmap, Hp|].
    destruct (ensure_cta_post_bounds p) as [Hlen Hcta].
    split; [done|]. split; [done|]. apply ensure_cta_post_id.
  - intros Hall. induction Hall as [|p posts Hp _ IH]; [constructor|].
    constructor; [|done].
    destruct (ensure_cta_post_bounds p) as [Hlen Hcta]. split; [done|auto].
  - intros Hall. induction Hall as [|p posts Hp _ IH]; [done|].
    simpl. by rewrite ensure_cta_post_id, IH.
Qed.

End CallToActionProperties.

(** ** Stripping a set of characters *)

Lemma lstrip_chars_head f s c s' : lstrip_chars f s = c :: s' -> f c = false.
Proof.
  induction s as [|x s IH]; [done|]. simpl.
  destruct (f x) eqn:Hx; [done|]. by intros [= <- _].
Qed.

Lemma lstrip_chars_suffix f s : lstrip_chars f s `suffix_of` s.
Proof.
  induction s as [|c s IH]; [done|]. simpl. destruct (f c); [|done].
  by apply suffix_cons_r.
Qed.

Lemma lstrip_chars_snoc f s c :
  f c = false -> lstrip_chars f (s ++ [c]) = lstrip_chars f s ++ [c].
Proof.
  intros Hc. induction s as [|x s IH]; simpl; [by rewrite Hc|].
  by destruct (f x).
Qed.

Lemma rstrip_chars_cons f c s :
  f c = false -> rstrip_chars f (c :: s) = c :: rstrip_chars f s.
Proof.
  intros Hc. unfold rstrip_chars.
  by rewrite reverse_cons, lstrip_chars_snoc, reverse_snoc.
Qed.

Lemma rstrip_chars_prefix f s : rstrip_chars f s `prefix_of` s.
Proof.
  unfold rstrip_chars. destruct (lstrip_chars_suffix f (reverse s)) as [k Hk].
  exists (reverse k). apply (inj reverse).
  by rewrite reverse_app, !reverse_involutive.
Qed.

Lemma rstrip_chars_last f s c s' : rstrip_chars f s = s' ++ [c] -> f c = false.
Proof.
  unfold rstrip_chars. intros Hs. apply (f_equal reverse) in Hs.
  rewrite reverse_involutive, reverse_snoc in Hs.
  by apply lstrip_chars_head in Hs.
Qed.

Lemma strip_chars_head f s c s' : strip_chars f s = c :: s' -> f c = false.
Proof.
  unfold strip_chars. intros Hs.
  destruct (lstrip_chars f s) as [|x l] eqn:Hl; [done|].
  pose proof (lstrip_chars_head _ _ _ _ Hl) as Hx.
  rewrite rstrip_chars_cons in Hs by done. by injection Hs as <- _.
Qed.

Lemma strip_chars_last f s c s' : strip_chars f s = s' ++ [c] -> f c = false.
Proof. apply rstrip_chars_last. Qed.

Lemma strip_chars_sublist f s : strip_chars f s `sublist_of` s.
Proof.
  unfold strip_chars. destruct (rstrip_chars_prefix f (lstrip_chars f s)) as [k Hk].
  destruct (lstrip_chars_suffix f s) as [k' Hk']. trans (lstrip_chars f s).
  - rewrite Hk at 2. by apply sublist_inserts_r.
  - rewrite Hk' at 2. by apply sublist_inserts_l.
Qed.

(** ** Replacing the matches of a pattern *)

Lemma reverse_seq_S a m : reverse (seq a (S m)) = (a + m) :: reverse (seq a m).
Proof. by rewrite seq_S, reverse_snoc. Qed.

Lemma run_zero_head f (s : list N) k c :
  run f (drop k s) = 0 -> s !! k = Some c -> f c = false.
Proof.
  intros Hr Hk. rewrite (drop_S _ _ _ Hk) in Hr. simpl in Hr.
  by destruct (f c).
Qed.

Section SlugProperties.
Context `{UnicodeData}.

Lemma pieces_plus_clean f s n : forall k start,
  k + n = S (length s) ->
  (forall j c, start <= j -> j < k -> s !! j = Some c -> f c = false) ->
  Forall (Forall (fun c => f c = false)) (pieces_from s (Plus f) (seq k n) start).
Proof.
  assert (forall start k,
    (forall j c, start <= j -> j < k -> s !! j = Some c -> f c = false) ->
    Forall (fun c => f c = false) (take (k - start) (drop start s))) as Hpiece.
  { intros start k Hinv. apply Forall_lookup. intros i c Hi.
    apply lookup_take_Some in Hi as [Hi Hlt]. rewrite lookup_drop in Hi.
    apply (Hinv (start + i)); [lia|lia|done]. }
  induction n as [|n IH]; intros k start Hn Hinv.
  - simpl. apply Forall_singleton.
    rewrite <- (take_ge (drop start s) (k - start)); [by apply Hpiece|].
    rewrite length_drop. lia.
  - cbn [seq pieces_from]. destruct (Nat.leb_spec start k) as [Hle|Hgt].
    + cbn [ends]. destruct (run f (drop k s)) as [|m] eqn:Hrun.
      * simpl. apply IH; [lia|]. intros j c Hj1 Hj2 Hc.
        destruct (decide (j = k)) as [->|]; [by eapply run_zero_head|].
        apply (Hinv j); [done|lia|done].
      * rewrite reverse_seq_S. cbn [map].
        destruct (Nat.ltb_spec k (k + (1 + m))); [|lia].
        constructor; [by apply Hpiece|].
        apply IH; [lia|]. intros; lia.
    + apply IH; [lia|]. intros; lia.
Qed.

Lemma split_plus_clean f s :
  Forall (Forall (fun c => f c = false)) (split s (Plus f)).
Proof. apply pieces_plus_clean; [lia|]. intros; lia. Qed.

Lemma elem_of_join (sep : list N) l c :
  c ∈ join sep l -> c ∈ sep \/ exists x, x ∈ l /\ c ∈ x.
Proof.
  induction l as [|x l IH]; [by intros ?%elem_of_nil|].
  destruct l as [|y l].
  - simpl. intros Hc. right. exists x. split; [by left|done].
  - change (join sep (x :: y :: l)) with (x ++ sep ++ join sep (y :: l)).
    rewrite !elem_of_app. intros [Hc|[Hc|Hc]].
    + right. exists x. split; [by left|done].
    + by left.
    + destruct (IH Hc) as [?|(z & Hz & ?)]; [by left|].
      right. exists z. split; [by right|done].
Qed.

Lemma split_chars s r x c : x ∈ split s r -> c ∈ x -> c ∈ s.
Proof.
  intros Hx Hc. apply (sublist_subseteq_chars (concat (split s r))).
  - apply (concat_pieces_sublist s r _ 0).
  - apply list_elem_of_In, in_concat. exists x.
    by rewrite <- !list_elem_of_In.
Qed.

Lemma replace_all_chars s f c :
  c ∈ replace_all s (Plus f) [DASH] ->
  c = DASH \/ (c ∈ s /\ f c = false).
Proof.
  unfold replace_all. intros [Hc|(x & Hx & Hc)]%elem_of_join.
  - left. by apply list_elem_of_singleton in Hc.
  - right. split; [by eapply split_chars|].
    pose proof (split_plus_clean f s) as Hclean.
    rewrite Forall_forall in Hclean. specialize (Hclean x Hx).
    rewrite Forall_forall in Hclean. by apply Hclean.
Qed.

Lemma slugify_cases s maxlen :
  slugify s maxlen = lit "task"
  \/ slugify s maxlen <> []
     /\ slugify s maxlen
        = strip_chars is_dash
            (slice_to (strip_chars is_dash
                         (replace_all (lower (strip s)) NON_ALNUM_RE [DASH]))
                      maxlen).
Proof.
  unfold slugify. cbn zeta. destruct (strip_chars is_dash (slice_to _ _)); [by left|].
  by right.
Qed.

Lemma slugify_body_chars s maxlen c :
  c ∈ strip_chars is_dash
        (slice_to (strip_chars is_dash
                     (replace_all (lower (strip s)) NON_ALNUM_RE [DASH]))
                  maxlen) ->
  c = DASH \/ (c ∈ lower (strip s) /\ ascii_isalnum c = true).
Proof.
  intros Hc. apply (sublist_subseteq_chars _ _ (strip_chars_sublist _ _)) in Hc.
  apply slice_to_subseteq in Hc.
  apply (sublist_subseteq_chars _ _ (strip_chars_sublist _ _)) in Hc.
  apply replace_all_chars in Hc as [->|[Hc Hf]]; [by left|right].
  split; [done|]. by apply negb_false_iff in Hf.
Qed.

(** X15.  A slug is never empty, is made of ASCII letters, digits and dashes
    only, and neither starts nor ends with a dash; with a bound of at least
    4 it is no longer than the bound; and the slug of an ASCII text has no
    capital letter. *)
Theorem slugify_shape s maxlen :
  slugify s maxlen <> []
  /\ Forall (fun c => slug_char c = true) (slugify s maxlen)
  /\ (forall c t, slugify s maxlen = c :: t -> c <> DASH)
  /\ (forall t c, slugify s maxlen = t ++ [c] -> c <> DASH)
  /\ ((4 <= maxlen)%Z -> (Z.of_nat (length (slugify s maxlen)) <= maxlen)%Z)
  /\ (Forall (fun c => is_ascii c = true) s ->
      Forall (fun c => ascii_isupper c = false) (slugify s maxlen)).
Proof.
  destruct (slugify_cases s maxlen) as [->|[Hne Heq]]; [|rewrite Heq in Hne |- *].
  { split; [done|]. split; [by vm_compute; repeat constructor|].
    split; [by intros c t [= <- _]|]. split.
    - intros t c Ht. change (lit "task") with (lit "tas" ++ [107%N]) in Ht.
      by apply app_inj_tail in Ht as [_ <-].
    - split; [simpl; lia|]. intros _. by vm_compute; repeat constructor. }
  split; [exact Hne|]. split; [|split; [|split; [|split]]].
  - apply Forall_forall. intros c [->|[_ Hc]]%slugify_body_chars; [done|].
    unfold slug_char. by rewrite Hc.
  - intros c t Hs ->. by apply strip_chars_head in Hs.
  - intros t c Hs ->. by apply strip_chars_last in Hs.
  - intros Hm. etrans; [apply inj_le, sublist_length, strip_chars_sublist|].
    rewrite slice_to_nonneg by lia. rewrite length_take. lia.
  - intros Hs. apply Forall_forall. intros c [->|[Hc _]]%slugify_body_chars; [done|].
    rewrite lower_ascii in Hc.
    + apply list_elem_of_In, in_map_iff in Hc as (x & <- & _).
      unfold ascii_lower, ascii_isupper.
      destruct ((65 <=? x)%N && (x <=? 90)%N) eqn:Hu; [|done].
      apply andb_true_iff in Hu as [Hl%N.leb_le Hu%N.leb_le].
      destruct (N.leb_spec (x + 32) 90); [lia|]. by rewrite andb_false_r.
    + rewrite Forall_forall in Hs |- *. intros x Hx. by apply Hs, strip_subseteq.
Qed.
End SlugProperties.

(** ** Characters of the lines and of a joined text *)

Lemma splitlines_from_Forall (Q : N -> Prop) n : forall s cur,
  length s <= n -> Forall Q cur -> Forall Q s ->
  Forall (Forall Q) (splitlines_from cur s).
Proof.
  assert (forall cur, Forall Q cur -> Forall Q (reverse cur)) as Hrev.
  { intros cur Hcur. apply Forall_forall. intros c Hc.
    rewrite elem_of_reverse in Hc. revert c Hc. by apply Forall_forall. }
  assert (Forall Q []) as Hnil by constructor.
  induction n as [|n IH]; intros s cur Hn Hcur Hs.
  - destruct s; [|simpl in Hn; lia]. simpl.
    destruct cur; [constructor|]. apply Forall_singleton. by apply Hrev.
  - destruct s as [|c s].
    { simpl. destruct cur; [constructor|]. apply Forall_singleton. by apply Hrev. }
    simpl in Hn. inversion Hs as [|? ? Hc Hs']; subst.
    simpl. destruct (is_linebreak c).
    + constructor; [by apply Hrev|].
      destruct (c =? CR)%N; [|apply IH; [lia|done|done]].
      destruct s as [|d s]; [apply IH; [simpl; lia|done|done]|].
      inversion Hs' as [|? ? Hd Hs'']; subst.
      destruct (d =? NEWLINE)%N; apply IH; simpl in *; try lia; done.
    + apply IH; [lia| |done]. by constructor.
Qed.

Lemma splitlines_chars s x c : x ∈ splitlines s -> c ∈ x -> c ∈ s.
Proof.
  intros Hx Hc.
  assert (Forall (fun c => c ∈ s) s) as Hs by by apply Forall_forall.
  pose proof (splitlines_from_Forall (fun c => c ∈ s) (length s) s []
                (Nat.le_refl _) (Forall_nil_2 _) Hs) as Hall.
  rewrite Forall_forall in Hall. specialize (Hall x Hx).
  rewrite Forall_forall in Hall. by apply Hall.
Qed.

Lemma trimmed_join sep (l : list (list N)) :
  l <> [] -> Forall (fun x => trimmed x /\ x <> []) l -> trimmed (join sep l).
Proof.
  intros Hne Hl. split.
  - destruct Hl as [|x l [[Hx _] Hxne] Hl]; [done|].
    intros c s' Hs. destruct x as [|c' x]; [done|].
    assert (c = c') as ->.
    { destruct l; simpl in Hs; by injection Hs as <-. }
    by eapply Hx.
  - clear Hne. induction Hl as [|x l [[_ Hx] Hxne] Hl IH]; intros s' d Hs.
    { by destruct s'. }
    destruct l as [|y l].
    + simpl in Hs. by eapply Hx.
    + change (join sep (x :: y :: l)) with (x ++ sep ++ join sep (y :: l)) in Hs.
      rewrite !app_assoc in Hs.
      destruct (join sep (y :: l)) as [|e t _] eqn:Hj using rev_ind.
      * exfalso. inversion Hl as [|? ? [_ Hyne] _]; subst.
        destruct y; [done|]. destruct l; simpl in Hj; done.
      * rewrite app_assoc in Hs. apply app_inj_tail in Hs as [_ <-].
        by eapply IH.
Qed.

Section DeliverableProperties.
Context `{UnicodeData}.

Lemma split_posts_chars text p c : p ∈ split_posts text -> c ∈ p -> c ∈ text.
Proof.
  unfold split_posts. intros Hp Hc. destruct (3 <=? _).
  - unfold stripped_lines in Hp.
    apply list_elem_of_In, in_map_iff in Hp as (raw & <- & Hraw).
    apply list_elem_of_In, list_elem_of_filter in Hraw as [_ Hraw].
    apply strip_subseteq in Hc. by eapply splitlines_chars.
  - apply list_elem_of_filter in Hp as [_ Hp].
    apply list_elem_of_In, in_map_iff in Hp as (raw & <- & Hraw).
    apply list_elem_of_In, list_elem_of_filter in Hraw as [_ Hraw].
    apply strip_subseteq in Hc. by eapply split_chars.
Qed.

Lemma critic_posts_chars work p c :
  p ∈ enforce_three (split_posts work) -> c ∈ p ->
  c ∈ work \/ c ∈ FALLBACK_POST.
Proof.
  rewrite enforce_three_spec. cbn zeta.
  intros [Hp|Hp]%elem_of_app Hc.
  - left. apply subseteq_take in Hp.
    apply list_elem_of_filter in Hp as [_ Hp]. by eapply split_posts_chars.
  - right. by apply elem_of_replicate in Hp as [-> _].
Qed.

Lemma revised_post_chars p c :
  c ∈ revised_post p ->
  c ∈ p \/ c = ELLIPSIS \/ c ∈ SHORT_SUFFIX \/ c ∈ LONG_SUFFIX.
Proof.
  unfold revised_post. intros [Hc| ->]%trim_to_limit_chars; [|auto].
  apply ensure_cta_post_chars in Hc as [Hc|Hc]; [|auto].
  apply trim_to_limit_chars in Hc as [Hc| ->]; auto.
Qed.

(** The characters the guardrails put into a deliverable themselves. *)
Lemma guarded_chars work c :
  c ∈ guarded work ->
  c ∈ work
  \/ c ∈ NEWLINE :: ELLIPSIS :: FALLBACK_POST ++ SHORT_SUFFIX ++ LONG_SUFFIX.
Proof.
  unfold guarded. rewrite (role_critic_eq work).
  cbn zeta. destruct (negb _); [|by left].
  unfold role_reviser. rewrite revised_posts_map.
  intros [Hc|(q & Hq & Hc)]%elem_of_join.
  - right. apply list_elem_of_singleton in Hc as ->. by left.
  - apply list_elem_of_In, in_map_iff in Hq as (p & <- & Hp).
    apply list_elem_of_In in Hp.
    rewrite !elem_of_cons, !elem_of_app.
    apply revised_post_chars in Hc as [Hc|[->|[Hc|Hc]]]; auto 10.
    apply (critic_posts_chars work p c) in Hc as [?|?]; auto 10.
Qed.

Lemma guarded_trimmed work : trimmed work -> trimmed (guarded work).
Proof.
  intros Hw. unfold guarded. rewrite (role_critic_eq work).
  cbn zeta. destruct (negb _); [|done].
  unfold role_reviser. rewrite revised_posts_map.
  pose proof (critic_posts_shape work) as Hshape.
  pose proof (length_enforce_three (split_posts work)) as Hlen.
  destruct (enforce_three (split_posts work)) as [|p posts]; [done|].
  apply trimmed_join; [done|].
  apply Forall_forall. intros q Hq.
  apply list_elem_of_In, in_map_iff in Hq as (x & <- & Hx).
  apply list_elem_of_In in Hx. rewrite Forall_forall in Hshape.
  destruct (Hshape x Hx) as [Hne Ht]. by apply revised_post_trimmed.
Qed.

(** X16.  The deliverable that leaves the critic and reviser steps is
    written as it is: when the worker's text, which comes trimmed from
    [chat], holds no less-than sign and no opening bracket, the final
    [sanitize] of [run_pipeline] changes nothing, whether the reviser ran
    or not. *)
Theorem guarded_text_is_clean work :
  trimmed work -> 60%N ∉ work -> 91%N ∉ work ->
  sanitize (guarded work) = guarded work.
Proof.
  intros Hw Hlt Hbr.
  assert (forall c, (c = 60 \/ c = 91)%N -> c ∉ work -> c ∉ guarded work) as Hno.
  { intros c Hc Hout [Hin|Hin]%guarded_chars; [done|].
    revert Hin. destruct Hc as [-> | ->]; vm_compute; intros Hin;
      repeat (apply elem_of_cons in Hin as [Hin|Hin]; [done|]);
      by apply elem_of_nil in Hin. }
  rewrite sanitize_no_markup by (apply Hno; auto).
  by apply trimmed_strip, guarded_trimmed.
Qed.

End DeliverableProperties.

Lemma guarded_text_is_clean_witness :
  @sanitize ascii_only (@guarded ascii_only long_work)
  = @guarded ascii_only long_work.
Proof.
  apply (@guarded_text_is_clean ascii_only).
  - assert (strip long_work = long_work) as Hs by by vm_compute.
    rewrite <- Hs. apply strip_trimmed.
  - apply (bool_decide_unpack _). by vm_compute.
  - apply (bool_decide_unpack _). by vm_compute.
Defined.

(** ** Reasoning blocks *)

Lemma run_all (l : list N) : run (fun _ => true) l = length l.
Proof. induction l as [|c l IH]; [done|]. simpl. by rewrite IH. Qed.

Lemma map_add_seq a b n : map (Nat.add a) (seq b n) = seq (a + b) n.
Proof.
  revert b. induction n as [|n IH]; intros b; [done|].
  simpl. rewrite IH. do 2 f_equal. lia.
Qed.

Lemma flat_map_skip {A} (f : nat -> list A) m : forall a n,
  (forall j, a <= j < a + m -> f j = []) ->
  flat_map f (seq a (m + n)) = flat_map f (seq (a + m) n).
Proof.
  induction m as [|m IH]; intros a n Hnil.
  - by rewrite Nat.add_0_r.
  - simpl. rewrite Hnil by lia. simpl. rewrite IH by (intros; apply Hnil; lia).
    do 2 f_equal. lia.
Qed.

Section ThinkBlock.
Context `{UnicodeData}.

(** Matching a pattern without look-behind inside a suffix [t] of
    [x ++ t] does not look at [x]. *)
Lemma ends_shift_any x t r :
  looks_behind r = false ->
  forall i, ends (x ++ t) r (length x + i) = map (Nat.add (length x)) (ends t r i).
Proof.
  induction r; intros Hr i; cbn [ends]; simpl in Hr; try discriminate.
  - done.
  - rewrite lookup_shift. destruct (t !! i) as [c|]; [|done].
    destruct (f c); [|done]. simpl. f_equal. lia.
  - apply orb_false_iff in Hr as [Hr1 Hr2]. rewrite IHr1 by done.
    induction (ends t r1 i) as [|j l IHl]; [done|].
    simpl. rewrite map_app. rewrite IHr2 by done. by rewrite IHl.
  - apply orb_false_iff in Hr as [Hr1 Hr2].
    by rewrite map_app, IHr1, IHr2.
  - by rewrite map_app, IHr.
  - rewrite drop_app_add'; [|done]. rewrite map_map. apply map_ext. intros; lia.
  - rewrite drop_app_add'; [|done]. rewrite map_map. apply map_ext. intros; lia.
  - rewrite drop_app_add'; [|done]. rewrite map_map. apply map_ext. intros; lia.
  - unfold at_eol. rewrite lookup_shift.
    repeat case_match; simpl; try done; f_equal; lia.
Qed.

Lemma ends_chr_miss s c i : s !! i <> Some c -> ends s (chr c) i = [].
Proof.
  intros Hc. unfold chr. simpl. destruct (s !! i) as [x|]; [|done].
  destruct (N.eqb_spec c x) as [->|]; done.
Qed.

Lemma ends_seq_single s a b i j :
  ends s a i = [j] -> ends s (Seq a b) i = ends s b j.
Proof. intros Ha. cbn [ends]. rewrite Ha. simpl. by rewrite app_nil_r. Qed.

Lemma pieces_from_skip s r positions : forall start,
  (forall i, i ∈ positions -> i < start \/ ends s r i = []) ->
  pieces_from s r positions start = [drop start s].
Proof.
  induction positions as [|i rest IH]; intros start Hskip; [done|].
  cbn [pieces_from]. rewrite IH by (intros; apply Hskip; by right).
  destruct (Nat.leb_spec start i) as [Hle|Hgt]; [|done].
  destruct (Hskip i) as [?| ->]; [by left|lia|done].
Qed.

Lemma pieces_from_app_skip s r l1 l2 start :
  (forall i, i ∈ l1 -> i < start \/ ends s r i = []) ->
  pieces_from s r (l1 ++ l2) start = pieces_from s r l2 start.
Proof.
  induction l1 as [|i l1 IH]; intros Hskip; [done|].
  cbn [app pieces_from]. rewrite IH by (intros; apply Hskip; by right).
  destruct (Nat.leb_spec start i) as [Hle|Hgt]; [|done].
  destruct (Hskip i) as [?| ->]; [by left|lia|done].
Qed.

(** The closing tag matches where it stands. *)
Lemma close_tag_matches b :
  ends (lit "</think>" ++ b)
    (seqs [chr 60%N; Star isspace; chr 47%N; Star isspace; ci_word "think";
           Star isspace; chr 62%N]) 0
  = [8].
Proof. reflexivity. Qed.

(** A block that opens at the start of the text is matched up to the end of
    its closing tag. *)
Lemma think_block_matches x b :
  60%N ∉ x ->
  exists l,
    ends (lit "<think>" ++ x ++ lit "</think>" ++ b) THINK_RE 0
    = (15 + length x) :: l.
Proof.
  intros Hx. set (rest := x ++ lit "</think>" ++ b).
  set (t := lit "<think>" ++ rest).
  unfold THINK_RE. cbn [seqs].
  rewrite (ends_seq_single t _ _ 0 1) by reflexivity.
  rewrite (ends_seq_single t _ _ 1 1) by reflexivity.
  rewrite (ends_seq_single t _ _ 1 6) by reflexivity.
  rewrite (ends_seq_single t _ _ 6 6) by reflexivity.
  rewrite (ends_seq_single t _ _ 6 7) by reflexivity.
  set (close := Seq (chr 60%N) _).
  cbn [ends]. change (drop 7 t) with rest. rewrite run_all, map_add_seq.
  assert (length rest = length x + (8 + length b)) as ->.
  { unfold rest. by rewrite !length_app. }
  rewrite <- Nat.add_succ_r, Nat.add_0_r.
  rewrite (flat_map_skip (ends t close) (length x) 7).
  2:{ intros j Hj. unfold close. apply ends_seq_nil_l, ends_chr_miss.
      replace j with (length (lit "<think>") + (j - 7)) by (simpl; lia).
      unfold t. rewrite lookup_shift. unfold rest.
      rewrite lookup_app_l by lia. intros Hin.
      by apply list_elem_of_lookup_2 in Hin. }
  cbn [seq flat_map].
  replace t with ((lit "<think>" ++ x) ++ (lit "</think>" ++ b))
    by (unfold t, rest; by rewrite <- app_assoc).
  replace (7 + length x) with (length (lit "<think>" ++ x) + 0)
    by (rewrite length_app; simpl; lia).
  rewrite ends_shift_any by reflexivity.
  unfold close. rewrite close_tag_matches. cbn [map app].
  eexists. f_equal. rewrite length_app. simpl. lia.
Qed.

Lemma delete_think_block a x b :
  60%N ∉ a -> 60%N ∉ x -> 60%N ∉ b ->
  delete_all (a ++ lit "<think>" ++ x ++ lit "</think>" ++ b) THINK_RE
  = a ++ b.
Proof.
  intros Ha Hx Hb.
  set (t := lit "<think>" ++ x ++ lit "</think>" ++ b).
  set (e := length a + (15 + length x)).
  assert (length t = 15 + length x + length b) as Ht.
  { unfold t. rewrite !length_app. simpl. lia. }
  assert (drop e (a ++ t) = b) as Hdrop.
  { unfold e. rewrite drop_app_add'; [|done]. unfold t.
    rewrite (app_assoc (lit "<think>")), (app_assoc _ (lit "</think>")).
    rewrite drop_app_length'; [done|]. rewrite !length_app. simpl. lia. }
  assert (forall i, i < length a \/ e <= i -> ends (a ++ t) THINK_RE i = []) as Hout.
  { intros i Hi. unfold THINK_RE. cbn [seqs].
    apply ends_seq_nil_l, ends_chr_miss. intros Hin.
    destruct Hi as [Hi|Hi].
    - rewrite lookup_app_l in Hin by done.
      by apply list_elem_of_lookup_2 in Hin.
    - assert (drop e (a ++ t) !! (i - e) = Some 60%N) as Hd.
      { rewrite lookup_drop. rewrite <- Hin. f_equal. lia. }
      rewrite Hdrop in Hd. by apply list_elem_of_lookup_2 in Hd. }
  destruct (think_block_matches x b Hx) as [l Hl]. fold t in Hl.
  assert (ends (a ++ t) THINK_RE (length a) = e :: map (Nat.add (length a)) l)
    as Hmatch.
  { rewrite <- (Nat.add_0_r (length a)) at 1.
    rewrite ends_shift_any by reflexivity. by rewrite Hl. }
  unfold delete_all, split.
  replace (S (length (a ++ t)))
    with (length a + S (length t)) by (rewrite length_app; lia).
  rewrite seq_app, pieces_from_app_skip.
  2:{ intros i Hi%list_elem_of_In%in_seq. right. apply Hout. lia. }
  change (0 + length a) with (length a).
  cbn [seq pieces_from]. rewrite Hmatch.
  destruct (Nat.ltb_spec (length a) e) as [_|Hge]; [|unfold e in Hge; lia].
  rewrite pieces_from_skip.
  2:{ intros i Hi%list_elem_of_In%in_seq.
      destruct (Nat.lt_ge_cases i e); [by left|right]. apply Hout. by right. }
  rewrite Hdrop, Nat.sub_0_r, drop_0, take_app_length.
  simpl. by rewrite app_nil_r.
Qed.

(** X17.  [sanitize] removes a reasoning block with everything in it: for a
    text that holds one block between the tags [<think>] and [</think>]
    and otherwise no less-than sign, and no opening bracket outside the
    block, what is left is the stripped text around the block. *)
Theorem sanitize_removes_think_block a x b :
  60%N ∉ a -> 60%N ∉ x -> 60%N ∉ b -> 91%N ∉ a -> 91%N ∉ b ->
  sanitize (a ++ lit "<think>" ++ x ++ lit "</think>" ++ b) = strip (a ++ b).
Proof.
  intros Ha Hx Hb Ha' Hb'. unfold sanitize.
  rewrite delete_think_block by done.
  rewrite (delete_all_no_match (a ++ b) META_RE); [done|].
  intros i. unfold META_RE. cbn [seqs].
  apply ends_seq_nil_r. intros j. apply ends_seq_nil_r. intros k.
  apply ends_seq_nil_l, ends_chr_absent.
  by intros [?|?]%elem_of_app.
Qed.

End ThinkBlock.

Lemma sanitize_removes_think_block_witness :
  @sanitize ascii_only
    (lit "Sure. " ++ lit "<think>" ++ lit "[LOG] count the posts"
       ++ lit "</think>" ++ lit " Here they are. ")
  = lit "Sure.  Here they are.".
Proof.
  rewrite (@sanitize_removes_think_block ascii_only);
    [by vm_compute
    |apply (bool_decide_unpack _); by vm_compute
    |apply (bool_decide_unpack _); by vm_compute
    |apply (bool_decide_unpack _); by vm_compute
    |apply (bool_decide_unpack _); by vm_compute
    |apply (bool_decide_unpack _); by vm_compute].
Defined.

(** ** Role lines *)

Lemma run_line (x b : list N) :
  NEWLINE ∉ x -> run dot (x ++ NEWLINE :: b) = length x.
Proof.
  intros Hx. induction x as [|c x IH]; [done|].
  simpl. assert (dot c = true) as ->.
  { unfold dot. apply negb_true_iff, N.eqb_neq. intros ->. apply Hx. by left. }
  rewrite IH; [done|]. intros Hin. apply Hx. by right.
Qed.

Section RoleLine.
Context `{UnicodeData}.

Lemma ends_seq_all_nil s a b i :
  (forall j, j ∈ ends s a i -> ends s b j = []) -> ends s (Seq a b) i = [].
Proof.
  intros Hb. cbn [ends]. induction (ends s a i) as [|j l IH]; [done|].
  simpl. rewrite Hb by by left. simpl. apply IH. intros k Hk. apply Hb. by right.
Qed.

(** A role line at the start of the text is matched up to its end. *)
Lemma role_line_matches tag x b :
  In tag ROLE_TAGS -> NEWLINE ∉ x ->
  exists l,
    ends (lit "[" ++ lit tag ++ lit "]" ++ x ++ NEWLINE :: b) META_RE 0
    = (2 + length (lit tag) + length x) :: l.
Proof.
  intros Htag Hx.
  set (t := lit "[" ++ lit tag ++ lit "]" ++ x ++ NEWLINE :: b).
  unfold META_RE. cbn [seqs].
  rewrite (ends_seq_single t _ _ 0 0) by reflexivity.
  rewrite (ends_seq_single t _ _ 0 0) by reflexivity.
  rewrite (ends_seq_single t _ _ 0 1) by reflexivity.
  rewrite (ends_seq_single t _ _ 1 (1 + length (lit tag))).
  2:{ unfold t, ROLE_TAGS in *. simpl in Htag.
      destruct Htag as [<-|[<-|[<-|[<-|[<-|[]]]]]]; reflexivity. }
  rewrite (ends_seq_single t _ _ (1 + length (lit tag)) (2 + length (lit tag))).
  2:{ unfold t, ROLE_TAGS in *. simpl in Htag.
      destruct Htag as [<-|[<-|[<-|[<-|[<-|[]]]]]]; reflexivity. }
  assert (drop (2 + length (lit tag)) t = x ++ NEWLINE :: b) as Hdrop.
  { unfold t. rewrite (app_assoc (lit "[")), (app_assoc _ (lit "]")).
    rewrite drop_app_length'; [done|]. rewrite !length_app. simpl. lia. }
  cbn [ends]. rewrite Hdrop, run_line by done.
  rewrite reverse_seq_S. cbn [map flat_map].
  assert (at_eol t (2 + length (lit tag) + (0 + length x)) = true) as ->.
  { unfold at_eol.
    replace (t !! _) with (drop (2 + length (lit tag)) t !! length x)
      by (rewrite lookup_drop; f_equal; lia).
    rewrite Hdrop, list_lookup_middle by done. done. }
  eexists. simpl. do 2 f_equal.
Qed.

Lemma delete_role_line tag x b :
  In tag ROLE_TAGS -> NEWLINE ∉ x -> 91%N ∉ b ->
  delete_all (lit "[" ++ lit tag ++ lit "]" ++ x ++ NEWLINE :: b) META_RE
  = NEWLINE :: b.
Proof.
  intros Htag Hx Hb.
  set (t := lit "[" ++ lit tag ++ lit "]" ++ x ++ NEWLINE :: b).
  set (e := 2 + length (lit tag) + length x).
  assert (length t = e + S (length b)) as Ht.
  { unfold t, e. rewrite !length_app. simpl. lia. }
  assert (drop e t = NEWLINE :: b) as Hdrop.
  { unfold t, e.
    rewrite (app_assoc (lit "[")), (app_assoc _ (lit "]")), (app_assoc _ x).
    rewrite drop_app_length'; [done|]. rewrite !length_app. simpl. lia. }
  assert (forall k, e <= k -> t !! k <> Some 91%N) as Hno.
  { intros k Hk Hin.
    assert (drop e t !! (k - e) = Some 91%N) as Hd.
    { rewrite lookup_drop. rewrite <- Hin. f_equal. lia. }
    rewrite Hdrop in Hd. apply list_elem_of_lookup_2 in Hd.
    apply elem_of_cons in Hd as [?|?]; done. }
  assert (forall i, e <= i -> ends t META_RE i = []) as Hout.
  { intros i Hi. unfold META_RE. cbn [seqs].
    apply ends_seq_all_nil. intros j Hj%ends_ge.
    apply ends_seq_all_nil. intros k Hk%ends_ge.
    apply ends_seq_nil_l, ends_chr_miss, Hno. lia. }
  destruct (role_line_matches tag x b Htag Hx) as [l Hl]. fold t e in Hl.
  unfold delete_all, split. cbn [seq pieces_from]. rewrite Hl.
  destruct (Nat.ltb_spec 0 e) as [_|Hge]; [|unfold e in Hge; lia].
  rewrite pieces_from_skip.
  2:{ intros i Hi%list_elem_of_In%in_seq.
      destruct (Nat.lt_ge_cases i e); [by left|right]. by apply Hout. }
  rewrite Hdrop. simpl. by rewrite app_nil_r.
Qed.

(** X18.  [sanitize] removes a role line that opens the text: when the first
    line starts with one of the five role names in brackets, and the text
    holds no less-than sign and no further opening bracket after that
    line, what is left is the stripped rest of the text. *)
Theorem sanitize_removes_role_line tag x b :
  In tag ROLE_TAGS -> NEWLINE ∉ x -> 60%N ∉ x -> 60%N ∉ b -> 91%N ∉ b ->
  sanitize (lit "[" ++ lit tag ++ lit "]" ++ x ++ NEWLINE :: b) = strip b.
Proof.
  intros Htag Hx Hx' Hb Hb'. unfold sanitize.
  rewrite (delete_all_no_match _ THINK_RE).
  2:{ intros i. unfold THINK_RE. cbn [seqs].
      apply ends_seq_nil_l, ends_chr_absent.
      rewrite !elem_of_app, elem_of_cons.
      intros [Hin|[Hin|[Hin|[Hin|[Hin|Hin]]]]]; try done.
      - by apply list_elem_of_singleton in Hin.
      - unfold ROLE_TAGS in Htag. simpl in Htag.
        destruct Htag as [<-|[<-|[<-|[<-|[<-|[]]]]]];
          by apply (bool_decide_pack _) in Hin.
      - by apply list_elem_of_singleton in Hin. }
  by rewrite delete_role_line.
Qed.

End RoleLine.

Lemma sanitize_removes_role_line_witness :
  @sanitize ascii_only
    (lit "[" ++ lit "WORKER" ++ lit "]" ++ lit " [draft] three posts"
       ++ NEWLINE :: lit "First post. ")
  = lit "First post.".
Proof.
  rewrite (@sanitize_removes_role_line ascii_only);
    [by vm_compute
    |right; left; reflexivity
    |apply (bool_decide_unpack _); by vm_compute
    |apply (bool_decide_unpack _); by vm_compute
    |apply (bool_decide_unpack _); by vm_compute
    |apply (bool_decide_unpack _); by vm_compute].
Defined.

Module ClientFacts.
Import Client ClientProperties.

Lemma range_lookup a b j :
  (Z.of_nat j < b - a)%Z -> range a b !! j = Some (a + Z.of_nat j)%Z.
Proof.
  intros Hj. unfold range. rewrite list_lookup_fmap, lookup_seq_lt by lia.
  done.
Qed.


Section ChatFacts.
Context `{UnicodeData} `{Endpoint}.

Lemma posts_in_app l1 l2 : posts_in (l1 ++ l2) = posts_in l1 + posts_in l2.
Proof. unfold posts_in. by rewrite filter_app, length_app. Qed.

Lemma decode_inr r text d :
  decode r = inr (text, d) ->
  exists body raw,
    r = Response 200 body (Some d) /\ first_choice d = Some raw
    /\ text = sanitize raw.
Proof.
  destruct r as [e|status body [d'|]]; simpl; [done| |].
  - destruct (Z.eqb_spec status 200) as [->|]; simpl; [|done].
    destruct (first_choice d') as [raw|] eqn:Hraw; [|done].
    intros [= <- <-]. by exists body, raw.
  - by destruct (negb _).
Qed.

Lemma sleep_Some d w w' :
  sleep d w = Some w' ->
  accepted d = true
  /\ w' = {| sent := sent w; log := log w ++ [Sleep d] |}.
Proof.
  unfold sleep. destruct (accepted d); [|done]. by intros [= <-].
Qed.

Lemma sleep_None d w : sleep d w = None -> accepted d = false.
Proof. unfold sleep. by destruct (accepted d). Qed.

(** A failed attempt that another one may follow, and whose wait
    [time.sleep] refuses, ends the loop. *)
Lemma chat_loop_refused p a rest w e d :
  decode (net (sent w) p) = inl e -> (a < TRIES)%Z ->
  times BACKOFF a = Some d -> accepted d = false ->
  chat_loop p (a :: rest) w
  = (Raised (BadSleep d),
     {| sent := S (sent w); log := log w ++ [Post p] |}).
Proof.
  intros He Ha Hd Hacc. cbn [chat_loop post]. rewrite He.
  destruct (Z.ltb_spec a TRIES); [|lia]. rewrite Hd.
  unfold sleep. by rewrite Hacc.
Qed.

(** The loop over any list of attempt numbers: [k] requests are made, the
    first [k - 1] of them fail, and the outcome tells how the loop ended. *)
Lemma chat_loop_any p attempts : forall w,
  exists k l,
    k <= length attempts
    /\ sent (chat_loop p attempts w).2 = sent w + k
    /\ log (chat_loop p attempts w).2 = log w ++ l
    /\ posts_in l = k
    /\ (forall j, j < k - 1 -> fails p w j)
    /\ match (chat_loop p attempts w).1 with
       | Returned text d =>
           1 <= k /\ attempt_result p w (k - 1) = inr (text, d)
       | ReturnedNone =>
           k = length attempts /\ Forall (fun a => (a < TRIES)%Z) attempts
       | Raised (ApiCallFailed t e) =>
           1 <= k /\ t = TRIES /\ attempt_result p w (k - 1) = inl e
           /\ exists a, attempts !! (k - 1) = Some a /\ (TRIES <= a)%Z
       | Raised (BadSleep d) =>
           1 <= k /\ fails p w (k - 1) /\ accepted d = false
           /\ exists a, attempts !! (k - 1) = Some a /\ (a < TRIES)%Z
                        /\ times BACKOFF a = Some d
       | Raised (IntTooLarge b) =>
           1 <= k /\ fails p w (k - 1)
           /\ attempts !! (k - 1) = Some b /\ (b < TRIES)%Z
           /\ times BACKOFF b = None
       | Raised _ => False
       end.
Proof.
  unfold fails, attempt_result.
  induction attempts as [|a rest IH]; intros w.
  - exists 0, []. simpl. rewrite Nat.add_0_r, app_nil_r.
    repeat split; try done; intros; lia.
  - cbn [chat_loop post].
    destruct (decode (net (sent w) p)) as [e|[text d]] eqn:Hd.
    + destruct (Z.ltb_spec a TRIES) as [Hlt|Hge].
      * destruct (times BACKOFF a) as [x|] eqn:Hx.
        -- destruct (sleep _ _) as [w2|] eqn:Hs.
           ++ apply sleep_Some in Hs as [Hpos ->]. simpl.
              set (w2 := {| sent := _; log := _ |}).
              destruct (IH w2)
                as (k & l & Hk & Hsent & Hlog & Hposts & Hfail & Hlast).
              exists (S k), (Post p :: Sleep x :: l).
              split; [simpl; lia|]. split; [rewrite Hsent; simpl; lia|].
              split; [rewrite Hlog; simpl; by rewrite <- !app_assoc|].
              split; [rewrite <- Hposts; done|].
              assert (forall j, sent w2 + j = sent w + S j) as Hidx
                by (intros; simpl; lia).
              assert (forall j, 1 <= j ->
                        decode (net (sent w + j) p)
                        = decode (net (sent w2 + (j - 1)) p)) as Hres.
              { intros j Hj. do 2 f_equal. rewrite Hidx. f_equal. lia. }
              split.
              { intros [|j] Hj; [rewrite Nat.add_0_r; eauto|].
                rewrite <- Hidx. apply Hfail. lia. }
              rewrite Nat.sub_succ, Nat.sub_0_r.
              assert (forall b, 1 <= k -> rest !! (k - 1) = Some b ->
                                (a :: rest) !! k = Some b) as Hat.
              { intros b Hk1 Hb. destruct k; [lia|].
                by replace (S k - 1) with k in Hb by lia. }
              destruct (chat_loop p rest w2).1 as [text d| |[]] eqn:Hout;
                try done.
              ** destruct Hlast as [Hk1 Hlast]. split; [lia|].
                 by rewrite Hres.
              ** destruct Hlast as [-> Hall]. split; [done|]. by constructor.
              ** destruct Hlast as (Hk1 & Hf & Hb1 & Hb2 & Hb3).
                 split; [lia|]. split; [by rewrite Hres|]. auto.
              ** destruct Hlast as (Hk1 & Hf & Hacc & b & Hb & Hbt & Hbx).
                 split; [lia|]. split; [by rewrite Hres|].
                 split; [done|]. exists b. auto.
              ** destruct Hlast as (Hk1 & -> & Hlast & b & Hb & Hbt).
                 split; [lia|]. split; [done|]. split; [by rewrite Hres|].
                 exists b. auto.
           ++ apply sleep_None in Hs. simpl.
              exists 1, [Post p]. split; [simpl; lia|]. split; [lia|].
              split; [done|]. split; [done|]. split; [intros; lia|].
              split; [done|]. simpl. rewrite Nat.add_0_r.
              split; [eauto|]. split; [done|]. by exists a.
        -- simpl. exists 1, [Post p]. split; [simpl; lia|]. split; [lia|].
           split; [done|]. split; [done|]. split; [intros; lia|].
           split; [done|]. simpl. rewrite Nat.add_0_r.
           split; [eauto|]. done.
      * simpl. exists 1, [Post p]. split; [simpl; lia|]. split; [lia|].
        split; [done|]. split; [done|]. split; [intros; lia|].
        split; [done|]. split; [done|]. simpl. rewrite Nat.add_0_r.
        split; [done|]. by exists a.
    + simpl. exists 1, [Post p]. split; [simpl; lia|]. split; [lia|].
      split; [done|]. split; [done|]. split; [intros; lia|].
      simpl. by rewrite Nat.add_0_r.
Qed.

(** What [chat] returns. *)
Lemma chat_no_attempts p w : (TRIES <= 0)%Z -> chat p w = (ReturnedNone, w).
Proof. intros Ht. unfold chat. by rewrite range_nil by lia. Qed.

Lemma chat_none p w :
  (chat p w).1 = ReturnedNone -> (TRIES <= 0)%Z /\ (chat p w).2 = w.
Proof.
  intros Hout. destruct (Z.leb_spec TRIES 0) as [Hle|Hgt].
  { by rewrite chat_no_attempts. }
  exfalso. unfold chat in Hout.
  destruct (chat_loop_any p (range 1 (TRIES + 1)) w)
    as (k & l & _ & _ & _ & _ & _ & Hlast).
  rewrite Hout in Hlast. destruct Hlast as [_ Hall].
  rewrite Forall_lookup in Hall.
  specialize (Hall (Z.to_nat TRIES - 1) TRIES).
  rewrite range_lookup in Hall by lia.
  assert (TRIES < TRIES)%Z; [|lia]. apply Hall. f_equal. lia.
Qed.

Lemma chat_returned p w text d :
  (chat p w).1 = Returned text d -> trimmed text.
Proof.
  intros Hout. unfold chat in Hout.
  destruct (chat_loop_any p (range 1 (TRIES + 1)) w)
    as (k & l & _ & _ & _ & _ & _ & Hlast).
  rewrite Hout in Hlast. destruct Hlast as [_ Hres].
  apply decode_inr in Hres as (body & raw & _ & _ & ->).
  apply strip_trimmed.
Qed.


(** X20.  With a negative backoff and at least two configured attempts, a
    first attempt that fails ends the call: [time.sleep] raises on the
    negative wait, the error leaves [chat] unwrapped, and no second request
    is made. *)
Theorem chat_negative_backoff p w :
  negative BACKOFF = true -> (2 <= TRIES)%Z -> fails p w 0 ->
  chat p w
  = (Raised (BadSleep BACKOFF),
     {| sent := S (sent w); log := log w ++ [Post p] |}).
Proof.
  intros Hb Ht [e He]. unfold attempt_result in He.
  rewrite Nat.add_0_r in He.
  unfold chat. rewrite range_cons by lia.
  apply (chat_loop_refused _ _ _ _ e); [done|lia|apply times_one|].
  by apply negative_refused.
Qed.

(** X25.  With at least two configured attempts and a first attempt that
    fails, [time.sleep] on the backoff itself decides what follows.  When
    it does not accept the backoff, be it negative, too large, infinite or
    not a number, the call ends with the error of [time.sleep], unwrapped,
    after one request; when it accepts the backoff, the call waits that
    long and goes on to a second request. *)
Theorem chat_first_wait p w :
  (2 <= TRIES)%Z -> fails p w 0 ->
  (accepted BACKOFF = false ->
   chat p w
   = (Raised (BadSleep BACKOFF),
      {| sent := S (sent w); log := log w ++ [Post p] |}))
  /\ (accepted BACKOFF = true ->
      exists l,
        log (chat p w).2 = log w ++ Post p :: Sleep BACKOFF :: Post p :: l).
Proof.
  intros Ht [e He]. unfold attempt_result in He.
  rewrite Nat.add_0_r in He.
  unfold chat. rewrite range_cons by lia. split.
  - intros Hacc. by apply (chat_loop_refused _ _ _ _ e); [|lia|apply times_one|].
  - intros Hacc. cbn [chat_loop post]. rewrite He.
    destruct (Z.ltb_spec 1 TRIES); [|lia].
    rewrite times_one, (sleep_accepted BACKOFF) by done.
    rewrite (range_cons (1 + 1)) by lia.
    set (w2 := {| sent := _; log := _ |}).
    set (rest := range _ _). cbn [chat_loop post].
    set (w3 := {| sent := S (sent w2); log := log w2 ++ [Post p] |}).
    assert (forall out : outcome * world,
              (exists l, log out.2 = log w3 ++ l) ->
              exists l, log out.2
                        = log w ++ Post p :: Sleep BACKOFF :: Post p :: l)
      as Hext.
    { intros out [l ->]. exists l. unfold w3, w2. simpl.
      by rewrite <- !app_assoc. }
    apply Hext.
    destruct (decode (net (sent w2) p)) as [e2|[text d]];
      [|by exists []; rewrite app_nil_r].
    destruct (_ <? _)%Z; [|by exists []; rewrite app_nil_r].
    destruct (times BACKOFF (1 + 1)) as [x|]; [|by exists []; rewrite app_nil_r].
    destruct (sleep x w3) as [w4|] eqn:Hs; [|by exists []; rewrite app_nil_r].
    apply sleep_Some in Hs as [_ ->].
    destruct (chat_loop_any p rest
                {| sent := sent w3; log := log w3 ++ [Sleep x] |})
      as (k & l & _ & _ & Hlog & _).
    exists (Sleep x :: l). rewrite Hlog. simpl. by rewrite <- app_assoc.
Qed.

End ChatFacts.

Lemma chat_negative_backoff_witness :
  @fails ascii_only (recovering 2 (-1)) tt fresh 0
  /\ (@chat ascii_only (recovering 2 (-1)) tt fresh).1
     = Raised (BadSleep (Finite (-1))).
Proof.
  assert (@fails ascii_only (recovering 2 (-1)) tt fresh 0) as Hf.
  { by exists (Transport (lit "connection refused")). }
  split; [exact Hf|].
  by rewrite (@chat_negative_backoff ascii_only (recovering 2 (-1)) tt fresh).
Defined.

(** A backoff of 1e19 seconds, and one of a second. *)
Lemma chat_first_wait_witness :
  (@chat ascii_only (recovering 2 10000000000000000000) tt fresh).1
  = Raised (BadSleep (Finite 10000000000000000000))
  /\ exists l,
       log (@chat ascii_only (recovering 2 1) tt fresh).2
       = @Post (recovering 2 1) tt :: @Sleep (recovering 2 1) (Finite 1)
           :: @Post (recovering 2 1) tt :: l.
Proof.
  split.
  - destruct (@chat_first_wait ascii_only
                (recovering 2 10000000000000000000) tt fresh) as [Hno _];
      [done|by exists (Transport (lit "connection refused"))|].
    by rewrite Hno.
  - destruct (@chat_first_wait ascii_only (recovering 2 1) tt fresh)
      as [_ Hyes];
      [done|by exists (Transport (lit "connection refused"))|].
    by apply Hyes.
Defined.

End ClientFacts.

Module QueueFacts.
Import Queue QueueProperties.

Section RunQueueFacts.
Context `{Host}.

Lemma process_lines_Some lines : forall P w P' w',
  process_lines lines (P, w) = Some (P', w') ->
  STATE_F w' = STATE_F w
  /\ P' = P ∪ list_to_set (omap queued_id lines)
  /\ exists goals,
       log w' = log w
                ++ flat_map (fun g => [Checkout g; Pipeline g; Commit g]) goals
       /\ size P' = size P + length goals.
Proof.
  induction lines as [|line lines IH]; intros P w P' w'.
  - intros [= <- <-]. split; [done|].
    split; [simpl; by rewrite (right_id_L ∅ (∪))|].
    exists []. simpl. by rewrite app_nil_r, Nat.add_0_r.
  - cbn [process_lines].
    destruct (process_line line (P, w)) as [[P1 w1]|] eqn:Hline; [|done].
    simpl. intros Hrest.
    apply process_line_Some in Hline as [Hst Hline].
    apply IH in Hrest as (Hst' & -> & goals & Hlog & Hsize).
    split; [congruence|].
    cbn [omap list_omap]. destruct (queued_id line) as [tid|] eqn:Hid.
    + rewrite list_to_set_cons, (assoc_L (∪)), (comm_L (∪) P).
      destruct (bool_decide_reflect (tid ∈ P)) as [Hin|Hout].
      * destruct Hline as [-> ->]. split; [|by exists goals].
        f_equal. symmetry. apply subseteq_union_1_L.
        by apply singleton_subseteq_l.
      * destruct Hline as (-> & goal & Hlog1). split; [done|].
        exists (goal :: goals). split.
        -- rewrite Hlog, Hlog1. simpl. by rewrite <- app_assoc.
        -- rewrite Hsize, size_union, size_singleton
             by by apply disjoint_singleton_l.
           simpl. lia.
    + destruct Hline as [-> ->]. split; [done|]. by exists goals.
Qed.

Lemma loaded_save_state l x w :
  loaded (save_state {| processed_key := Members l; other_keys := x |} w)
  = list_to_set l.
Proof. reflexivity. Qed.

(** X21.  A run of the queue that ends normally saves as processed the ids
    it loaded together with the id of every line that names a task.  Each
    id that was not yet recorded has been run once (a checkout, a pipeline
    and a commit, in this order) even when several lines carry it, and
    nothing else was run; the other keys of the state file are kept. *)
Theorem run_queue_records lines w w1 :
  run_queue (Some lines) w = Some w1 ->
  loaded w1 = loaded w ∪ list_to_set (omap queued_id lines)
  /\ (exists st st1,
        load_state w = Some st /\ load_state w1 = Some st1
        /\ other_keys st1 = other_keys st)
  /\ exists goals,
       log w1 = log w
                ++ flat_map (fun g => [Checkout g; Pipeline g; Commit g]) goals
       /\ size (loaded w1) = size (loaded w) + length goals.
Proof.
  intros (st & P & P' & w' & l & Hst & HP & Hlines & Hl & ->)%run_queue_Some.
  apply process_lines_Some in Hlines as (_ & HP' & goals & Hlog & Hsize).
  rewrite loaded_save_state, (list_to_set_sorted P' l Hl).
  assert (loaded w = P) as ->
    by (unfold loaded; rewrite Hst; simpl; by rewrite HP).
  split; [done|]. split; [by eexists st, _|]. by exists goals.
Qed.

(** X22.  The queue is idempotent: after a run that ended normally, a
    second run over the same task list changes nothing, not even the state
    file. *)
Theorem run_queue_twice lines w w1 :
  run_queue (Some lines) w = Some w1 ->
  run_queue (Some lines) w1 = Some w1.
Proof.
  intros Hrun.
  destruct (run_queue_after lines w w1 w1 Hrun eq_refl) as (st & Hst & ->).
  destruct w1 as [e l f]. simpl in *. by rewrite Hst.
Qed.




End RunQueueFacts.

Lemma run_queue_records_witness :
  exists w1,
    @run_queue plain_host (Some (two_tasks ++ two_tasks)) untouched = Some w1
    /\ exists goals,
         log w1
         = flat_map (fun g => [Checkout g; Pipeline g; Commit g]) goals
         /\ size (loaded w1) = length goals.
Proof.
  destruct (plain_host_run_queue (two_tasks ++ two_tasks)) as [w1 Hrun].
  exists w1. split; [done|].
  destruct (@run_queue_records plain_host _ _ _ Hrun)
    as (_ & _ & goals & Hlog & Hsize).
  exists goals. split; [exact Hlog|exact Hsize].
Defined.

Lemma run_queue_twice_witness :
  exists w1,
    @run_queue plain_host (Some two_tasks) untouched = Some w1
    /\ @run_queue plain_host (Some two_tasks) w1 = Some w1.
Proof.
  destruct (plain_host_run_queue two_tasks) as [w1 Hrun].
  exists w1. split; [done|].
  exact (@run_queue_twice plain_host _ _ _ Hrun).
Defined.


End QueueFacts.

Module PipelineFacts.
Import Client ClientProperties ClientFacts Pipeline.

Section RunPipelineFacts.
Context `{UnicodeData} `{Endpoint} `{!Config}.

Lemma unpack_inr call w text d w' :
  unpack call w = (inr (text, d), w') ->
  call (network w) = (Returned text d, network w')
  /\ written w' = written w.
Proof.
  unfold unpack. destruct (call (network w)) as [[text' d'| |e] c];
    intros [= <- <- <-]; done.
Qed.

Lemma unpack_inl call w f w' :
  unpack call w = (inl f, w') ->
  written w' = written w
  /\ network w' = (call (network w)).2
  /\ match f with
     | NotIterable => (call (network w)).1 = ReturnedNone
     | ChatRaised e => (call (network w)).1 = Raised e
     | WriteFailed => False
     end.
Proof.
  unfold unpack. destruct (call (network w)) as [[text' d'| |e] c];
    intros [= <- <-]; done.
Qed.

Lemma save_text_eq stem text w :
  save_text stem text w
  = let p := OUT_DIR (now (length (written w)) ++ lit "-" ++ stem ++ lit ".txt") in
    if writable (length (written w))
    then (inr p, {| network := network w;
                    written := written w ++ [(p, Text text)] |})
    else (inl WriteFailed,
          {| network := network w;
             written := written w ++ [(p, Unfinished)] |}).
Proof.
  unfold save_text, bind, timestamp, write_text, ret. cbn zeta.
  by destruct (writable _).
Qed.

Lemma save_json_eq stem obj w :
  save_json stem obj w
  = let p := LOG_DIR (now (length (written w)) ++ lit "-" ++ stem ++ lit ".json") in
    if writable (length (written w))
    then (inr p, {| network := network w;
                    written := written w ++ [(p, Json obj)] |})
    else (inl WriteFailed,
          {| network := network w;
             written := written w ++ [(p, Unfinished)] |}).
Proof.
  unfold save_json, bind, timestamp, write_text, ret. cbn zeta.
  by destruct (writable _).
Qed.

(** [run_pipeline] from the critic on. *)
Lemma run_pipeline_eq goal w :
  run_pipeline goal w
  = bind (unpack (role_planner goal)) (fun '(plan, raw1) =>
      bind (unpack (role_worker plan goal)) (fun '(work, raw2) =>
        bind (save_text (lit "social-intro") (sanitize (guarded work)))
          (fun out_path =>
             bind (save_json (lit "planner-worker-critic")
                     {| t_goal := goal; t_planner_model := PLANNER_MODEL;
                        t_worker_model := WORKER_MODEL; t_api_base := API_BASE;
                        t_steps := steps_of plan raw1 work raw2 |})
               (fun log_path => ret (out_path, log_path))))) w.
Proof.
  unfold run_pipeline, bind.
  destruct (unpack (role_planner goal) w) as [[f|[plan raw1]] w1]; [done|].
  destruct (unpack (role_worker plan goal) w1) as [[f|[work raw2]] w2]; [done|].
  unfold steps_of, guarded.
  destruct (role_critic work) as [[ok feedback] posts]. cbn [fst snd].
  by destruct ok.
Qed.

(** X23.  A run of the pipeline that returns has asked the planner, then
    the worker with the planner's answer, and has written exactly two
    files: first the text, which is the sanitized deliverable after the
    critic and reviser steps, then the transcript, which lists the planner,
    the worker, the critic and, exactly when the critic rejected, the
    reviser.  Both answers come back without leading or trailing
    whitespace. *)
Theorem run_pipeline_returns goal w out_path log_path w' :
  run_pipeline goal w = (inr (out_path, log_path), w') ->
  exists plan raw1 work raw2 c1,
    role_planner goal (network w) = (Returned plan raw1, c1)
    /\ role_worker plan goal c1 = (Returned work raw2, network w')
    /\ trimmed plan /\ trimmed work
    /\ out_path
       = OUT_DIR (now (length (written w)) ++ lit "-"
                    ++ lit "social-intro" ++ lit ".txt")
    /\ log_path
       = LOG_DIR (now (S (length (written w))) ++ lit "-"
                    ++ lit "planner-worker-critic" ++ lit ".json")
    /\ written w'
       = written w
           ++ [(out_path, Text (sanitize (guarded work)));
               (log_path,
                Json {| t_goal := goal; t_planner_model := PLANNER_MODEL;
                        t_worker_model := WORKER_MODEL;
                        t_api_base := API_BASE;
                        t_steps := steps_of plan raw1 work raw2 |})].
Proof.
  rewrite run_pipeline_eq. unfold bind at 1.
  destruct (unpack (role_planner goal) w) as [[f|[plan raw1]] w1] eqn:Hp;
    [done|].
  apply unpack_inr in Hp as [Hp Hw1]. unfold bind at 1.
  destruct (unpack (role_worker plan goal) w1) as [[f|[work raw2]] w2] eqn:Hk;
    [done|].
  apply unpack_inr in Hk as [Hk Hw2]. unfold bind at 1.
  rewrite save_text_eq. cbn zeta.
  destruct (writable (length (written w2))); [|done].
  unfold bind. rewrite save_json_eq. cbn zeta. cbn [written network].
  destruct (writable _); [|done]. unfold ret. intros [= <- <- <-].
  exists plan, raw1, work, raw2, (network w1). cbn [written network].
  split; [done|]. split; [done|].
  split.
  { eapply (chat_returned _ (network w) plan raw1).
    unfold role_planner in Hp. by rewrite Hp. }
  split.
  { eapply (chat_returned _ (network w1) work raw2).
    unfold role_worker in Hk. by rewrite Hk. }
  rewrite length_app, Hw2, Hw1. cbn [length]. rewrite Nat.add_1_r.
  split; [done|]. split; [done|]. by rewrite <- app_assoc.
Qed.

(** X24.  A run that fails in a call to the model has written no file; one
    that fails writing leaves the unfinished file last, after the text at
    most.  Without a configured attempt every run fails on unpacking the
    planner's [None], before anything is sent or written, and this is the
    only way to that failure. *)
Theorem run_pipeline_raises goal w :
  ((TRIES <= 0)%Z -> run_pipeline goal w = (inl NotIterable, w))
  /\ forall f w',
       run_pipeline goal w = (inl f, w') ->
       match f with
       | ChatRaised e => written w' = written w
       | NotIterable => (TRIES <= 0)%Z /\ w' = w
       | WriteFailed =>
           exists q,
             written w' = written w ++ [(q, Unfinished)]
             \/ exists p text,
                  written w' = written w ++ [(p, Text text); (q, Unfinished)]
       end.
Proof.
  assert ((TRIES <= 0)%Z -> run_pipeline goal w = (inl NotIterable, w)) as Hnone.
  { intros Ht. rewrite run_pipeline_eq. unfold bind, unpack, role_planner.
    rewrite chat_no_attempts by done. by destruct w. }
  split; [done|]. intros f w'.
  destruct (Z.leb_spec TRIES 0) as [Hle|Hgt].
  { rewrite Hnone by done. by intros [= <- <-]. }
  rewrite run_pipeline_eq. unfold bind at 1.
  destruct (unpack (role_planner goal) w) as [[f1|[plan raw1]] w1] eqn:Hp.
  { intros [= <- <-]. apply unpack_inl in Hp as (Hw & _ & Hf).
    destruct f1 as [e| |]; [done| |done].
    apply chat_none in Hf as [? _]. lia. }
  apply unpack_inr in Hp as [Hp Hw1]. unfold bind at 1.
  destruct (unpack (role_worker plan goal) w1) as [[f2|[work raw2]] w2] eqn:Hk.
  { intros [= <- <-]. apply unpack_inl in Hk as (Hw & _ & Hf).
    destruct f2 as [e| |]; [congruence| |done].
    apply chat_none in Hf as [? _]. lia. }
  apply unpack_inr in Hk as [Hk Hw2]. unfold bind at 1.
  rewrite save_text_eq. cbn zeta.
  destruct (writable (length (written w2))).
  - unfold bind. rewrite save_json_eq. cbn zeta. cbn [written network].
    destruct (writable _); [done|]. intros [= <- <-]. cbn [written].
    eexists. right. eexists _, _. by rewrite Hw2, Hw1, <- app_assoc.
  - intros [= <- <-]. cbn [written]. eexists. left. by rewrite Hw2, Hw1.
Qed.

End RunPipelineFacts.

(** A run against the endpoint that refuses the first request: the planner
    is answered at its second attempt, the worker at once, and two files
    are written. *)
Lemma run_pipeline_returns_witness :
  exists out_path log_path w',
    @run_pipeline ascii_only (recovering 2 1) (recovering_config 2 1)
      (lit "intro") idle = (inr (out_path, log_path), w')
    /\ length (written w') = 2
    /\ sent (network w') = 3.
Proof.
  destruct (@run_pipeline ascii_only (recovering 2 1) (recovering_config 2 1)
              (lit "intro") idle) as [[f|[out_path log_path]] w'] eqn:Hrun;
    [by vm_compute in Hrun|].
  exists out_path, log_path, w'. split; [done|].
  destruct (@run_pipeline_returns ascii_only (recovering 2 1)
              (recovering_config 2 1) _ _ _ _ _ Hrun)
    as (plan & raw1 & work & raw2 & c1 & _ & _ & _ & _ & _ & _ & Hw).
  split; [by rewrite Hw|].
  vm_compute in Hrun. by injection Hrun as _ _ <-.
Defined.

(** A run against the endpoint that refuses every request, and a run
    without a configured attempt. *)
Lemma run_pipeline_raises_witness :
  (exists e w',
     @run_pipeline ascii_only (refusing 3 2) (refusing_config 3 2)
       (lit "intro") idle = (inl (ChatRaised e), w')
     /\ written w' = [])
  /\ @run_pipeline ascii_only (refusing 0 2) (refusing_config 0 2)
       (lit "intro") idle = (inl NotIterable, idle).
Proof.
  destruct (@run_pipeline_raises ascii_only (refusing 3 2)
              (refusing_config 3 2) (lit "intro") idle) as [_ Hfail].
  destruct (@run_pipeline_raises ascii_only (refusing 0 2)
              (refusing_config 0 2) (lit "intro") idle) as [Hnone _].
  split; [|by apply Hnone].
  destruct (@run_pipeline ascii_only (refusing 3 2) (refusing_config 3 2)
              (lit "intro") idle) as [[[e| |]|[out_path log_path]] w'] eqn:Hrun;
    try by vm_compute in Hrun.
  exists e, w'. split; [done|]. by apply (Hfail _ _ eq_refl).
Defined.

End PipelineFacts.
